(** * Health-check poller: dispatcher, fetcher and aggregator of main.go

    A shallow embedding of [src/main.go]:
    - [HealthResponse], [AggregatedData], [Config]: the structs;
    - [fetchHealthData]: the HTTP fetch, over an explicit transport oracle;
    - [serverURL]: the address normalisation inlined in the dispatch task;
    - [Dispatcher]: the goroutines of [fetchHealthDataWithDelayAndConcurrency]
      as an executable step function over scheduler events;
    - [aggregateData]: the reduction into [map[string]map[string]AggregatedData].

    Go's [int64] is a [Z] with the two's complement wrap-around written out,
    Go strings are [string], Go maps are [gmap]. *)

From Stdlib Require Import ZArith Lia DecimalString.
From stdpp Require Import base option list strings gmap fin_maps.

Local Open Scope Z_scope.

(** ** int64 arithmetic *)

Definition min_int64 : Z := - 2 ^ 63.
Definition max_int64 : Z := 2 ^ 63 - 1.

Definition in_int64 (z : Z) : Prop := min_int64 <= z <= max_int64.

(** Reduction of an unbounded integer to its int64 representative. *)
Definition wrap64 (z : Z) : Z := (z + 2 ^ 63) mod 2 ^ 64 - 2 ^ 63.

(** Go's [+] on int64 ([agg.TotalRequests += d.TotalRequests]). *)
Definition add64 (a b : Z) : Z := wrap64 (a + b).

(** ** Data model (main.go, lines 15-29) *)

Module Health.
Record HealthResponse := mkHealthResponse {
  Application : string;
  Version : string;
  Uptime : Z;
  RequestCount : Z;
  ErrorCount : Z;
  SuccessCount : Z
}.
End Health.
Abbreviation HealthResponse := Health.HealthResponse.

Record AggregatedData := mkAggregatedData {
  Application : string;
  Version : string;
  TotalRequests : Z;
  TotalSuccesses : Z
}.

(** The zero values Go gives to [var health HealthResponse] and to a missing
    map entry. *)
Definition zeroHealthResponse : HealthResponse :=
  Health.mkHealthResponse "" "" 0 0 0 0.

Definition zeroAggregatedData : AggregatedData :=
  mkAggregatedData "" "" 0 0.

(** ** aggregateData (main.go, lines 112-126) *)

Module Aggregator.

(** One iteration of [for _, d := range data]. *)
Definition aggregate_step
    (aggregation : gmap string (gmap string AggregatedData))
    (d : AggregatedData) : gmap string (gmap string AggregatedData) :=
  let aggregation :=
    match aggregation !! Application d with
    | Some _ => aggregation
    | None => <[Application d := ∅]> aggregation
    end in
  let versions := default ∅ (aggregation !! Application d) in
  let agg := default zeroAggregatedData (versions !! Version d) in
  let agg :=
    {| Application := Application d;
       Version := Version d;
       TotalRequests := add64 (TotalRequests agg) (TotalRequests d);
       TotalSuccesses := add64 (TotalSuccesses agg) (TotalSuccesses d) |} in
  <[Application d := <[Version d := agg]> versions]> aggregation.

Definition aggregateData (data : list AggregatedData)
  : gmap string (gmap string AggregatedData) :=
  fold_left aggregate_step data ∅.

(** [aggregation[app][version]] with its presence flag: the two-level lookup. *)
Definition entry (m : gmap string (gmap string AggregatedData))
    (app version : string) : option AggregatedData :=
  m !! app ≫= λ versions, versions !! version.

End Aggregator.

(** ** Observations on the input and on an aggregation *)

Definition sumZ (l : list Z) : Z := foldr Z.add 0 l.

(** The input records carrying the key [(app, version)], in input order. *)
Definition key_records (app version : string) (data : list AggregatedData)
  : list AggregatedData :=
  filter (λ d, Application d = app ∧ Version d = version) data.

(** No application maps to an empty version map. *)
Definition inner_nonempty (m : gmap string (gmap string AggregatedData)) : Prop :=
  ∀ app versions, m !! app = Some versions → versions ≠ ∅.


(** ** Spec-side operations compared with the code *)

(** Saturating addition, after the spec's "saturating/overflow-safe addition":
    the exact sum clamped to the int64 range. *)
Definition sat_add64 (a b : Z) : Z := Z.max min_int64 (Z.min max_int64 (a + b)).

(** The record stored under [(app, version)] after aggregating [data], as Go
    reads it ([aggregation[app][version]], zero value when absent). *)
Definition running (data : list AggregatedData) (app version : string)
  : AggregatedData :=
  default zeroAggregatedData
    (Aggregator.entry (Aggregator.aggregateData data) app version).

(** The spec's accumulation, stated for the step that consumes [d] after
    [data]: the new totals are the saturating sums of the old totals and the
    record's counters. *)
Definition saturating_step (data : list AggregatedData) (d : AggregatedData) : Prop :=
  TotalRequests (running (data ++ [d]) (Application d) (Version d))
  = sat_add64 (TotalRequests (running data (Application d) (Version d)))
              (TotalRequests d)
  ∧ TotalSuccesses (running (data ++ [d]) (Application d) (Version d))
    = sat_add64 (TotalSuccesses (running data (Application d) (Version d)))
                (TotalSuccesses d).

(** A key occurs in the input. *)
Definition occurs (app version : string) (data : list AggregatedData) : Prop :=
  ∃ d, d ∈ data ∧ Application d = app ∧ Version d = version.

(** Per-key sum of two totals records of one key, the counters added with
    [add]. *)
Definition sum_totals (add : Z → Z → Z) (a b : AggregatedData) : AggregatedData :=
  {| Application := Application a;
     Version := Version a;
     TotalRequests := add (TotalRequests a) (TotalRequests b);
     TotalSuccesses := add (TotalSuccesses a) (TotalSuccesses b) |}.

(** Merge of two aggregation mappings: keys of either side, totals summed
    with [add] where both sides have the key. *)
Definition merge_with (add : Z → Z → Z)
    (m1 m2 : gmap string (gmap string AggregatedData))
  : gmap string (gmap string AggregatedData) :=
  union_with
    (λ v1 v2, Some (union_with (λ a b, Some (sum_totals add a b)) v1 v2))
    m1 m2.

(** The spec's "summing per-key", read as the exact sum of the counters, and
    read with the spec's saturating addition. *)
Definition merge_exact := merge_with Z.add.
Definition merge_saturating := merge_with sat_add64.

(** The per-key sum taken with the wrapping addition of aggregateData. *)
Definition merge_wrapping := merge_with add64.

(** For every key the two mappings share, the exact sums of the two totals
    lie in the int64 range. *)
Definition sums_in_int64 (m1 m2 : gmap string (gmap string AggregatedData)) : Prop :=
  ∀ app version a b,
    Aggregator.entry m1 app version = Some a →
    Aggregator.entry m2 app version = Some b →
    in_int64 (TotalRequests a + TotalRequests b)
    ∧ in_int64 (TotalSuccesses a + TotalSuccesses b).

(** Sample inputs: the records of TestAggregateData, and records whose
    exact sum leaves the int64 range. *)
Definition test_first : AggregatedData :=
  mkAggregatedData "Memcache2" "1.0.1" 5194800029 4151986778.

Definition test_second : AggregatedData :=
  mkAggregatedData "Memcache2" "1.0.1" 1000000000 800000000.

Definition test_data : list AggregatedData := [test_first; test_second].

Definition overflow_data : list AggregatedData :=
  [ mkAggregatedData "App" "V1" max_int64 max_int64 ].

Definition overflow_rec : AggregatedData := mkAggregatedData "App" "V1" 1 1.

Definition large_data : list AggregatedData :=
  [ mkAggregatedData "App" "V1" 5000000000000000000 4000000000000000000;
    mkAggregatedData "App" "V1" 5000000000000000000 4000000000000000000 ].

(** ** Transport and decoding, as seen by fetchHealthData

    [client.Get] and [json.NewDecoder(...).Decode] belong to Go's standard
    library; the program is modelled over their results. *)

(** Result of [client.Get(serverURL)]: a non-nil error, or a response with
    its status code and body. *)
Inductive GetResult :=
| GetError (err : string)
| GetResponse (StatusCode : Z) (Body : string).

(** The network as one goroutine's call sees it: URL and client timeout give
    the result of the GET. *)
Definition Transport : Type := string → Z → GetResult.

(** Result of decoding a body into a zero [HealthResponse]: the struct as
    the decoder left it, the decoder's error if any, and the part of the body
    it did not consume. *)
Record DecodeResult := mkDecodeResult {
  decoded : HealthResponse;
  decode_err : option string;
  unread : string
}.

Definition StatusOK : Z := 200.

(** [%d] of fmt. *)
Definition fmt_d (z : Z) : string := NilZero.string_of_int (Z.to_int z).

Definition newline : string := String (Ascii.ascii_of_nat 10) "".

(** ** fetchHealthData (main.go, lines 32-53)

    Go's [(HealthResponse, error)] is a pair whose second component is [None]
    for a nil error and [Some msg] for the error built by [fmt.Errorf]. *)
Definition fetchHealthData (json_decode : string → DecodeResult)
    (client_Get : Transport) (serverURL : string) (timeout : Z)
  : HealthResponse * option string :=
  let health := zeroHealthResponse in
  match client_Get serverURL timeout with
  | GetError err =>
      (health, Some ("failed to reach server " +:+ serverURL +:+ ": " +:+ err))
  | GetResponse StatusCode Body =>
      if negb (StatusCode =? StatusOK) then
        (health,
         Some ("server " +:+ serverURL +:+ " returned status "
               +:+ fmt_d StatusCode +:+ ": " +:+ Body))
      else
        let r := json_decode Body in
        match decode_err r with
        | Some err =>
            (decoded r,
             Some ("failed to decode JSON from server " +:+ serverURL +:+ ": "
                   +:+ err +:+ ". Response: " +:+ unread r))
        | None => (decoded r, None)
        end
  end.

(** ** Address normalisation (main.go, lines 68-72) *)

(** [server] after the scheme check. *)
Definition withScheme (server : string) : string :=
  if negb (String.prefix "http://" server) && negb (String.prefix "https://" server)
  then "https://" +:+ server
  else server.

(** [serverURL := server + "/healthz"]. *)
Definition serverURL (server : string) : string :=
  withScheme server +:+ "/healthz".

(** The three failure modes of a fetch, read off the reply: the transport
    failed, the status is not 200, or the body does not decode. *)
Definition fetch_fails (json_decode : string → DecodeResult) (reply : GetResult)
  : Prop :=
  match reply with
  | GetError _ => True
  | GetResponse StatusCode Body =>
      StatusCode ≠ StatusOK ∨ is_Some (decode_err (json_decode Body))
  end.

(** Sample transport data: the record served by the tests' mock server, a
    decoder that accepts exactly the body [mock_body], and three servers'
    replies. *)
Definition mock_health : HealthResponse :=
  Health.mkHealthResponse "Memcache2" "1.0.1"
    4637719417 5194800029 1042813251 4151986778.

Definition mock_body : string := "mock-healthz-body".

Definition mock_decode (body : string) : DecodeResult :=
  if decide (body = mock_body) then mkDecodeResult mock_health None ""
  else mkDecodeResult zeroHealthResponse (Some "invalid character") "".

Definition mock_up : Transport := λ _ _, GetResponse 200 mock_body.
Definition mock_500 : Transport := λ _ _, GetResponse 500 "internal error".
Definition mock_down : Transport := λ _ _, GetError "connection refused".

Definition sample_host : string := "server-0001.cloud-ops-interview.sgdev.org".

(** ** Configuration (Config struct) *)

Record Config := mkConfig {
  HTTPTimeout : Z;
  RequestDelay : Z;
  MaxConcurrency : Z
}.

(** ** fetchHealthDataWithDelayAndConcurrency (main.go, lines 55-95)

    The function starts one goroutine per server and waits for all of them;
    the goroutines interleave.  The embedding is a step function: a state
    holds the range loop's position, every goroutine's program point, the
    semaphore channel, the WaitGroup counter, the data channel and what its
    consumer ([for data := range dataChannel] in main) has received; an event
    names who moves next; [step] is the move, [None] when that party is
    blocked or has nothing left to do. *)

Module Dispatcher.

(** Program points of the goroutine body. *)
Inductive task :=
| TEntry (server : string)      (* started by [go func(server)] *)
| TAcquire (url : string)       (* at [sem <- struct{}{}] *)
| TSleep (url : string)         (* permit held, in [time.Sleep] *)
| TFetch (url : string)         (* permit held, inside [fetchHealthData] *)
| TSend (d : AggregatedData)    (* permit held, at [dataChannel <- ...] *)
| TRelease                      (* returning: deferred [<-sem] *)
| TDone                         (* returning: deferred [wg.Done()] *)
| TExit.                        (* goroutine finished *)

Record state := mkState {
  pending : list string;          (* servers the range loop has not reached *)
  tasks : list task;              (* goroutines, in launch order *)
  sem : nat;                      (* len(sem): permits taken *)
  wg : nat;                       (* WaitGroup counter *)
  buffer : list AggregatedData;   (* dataChannel's buffer, oldest first *)
  closed : bool;                  (* close(dataChannel) was executed *)
  received : list AggregatedData; (* items taken by the consumer, in order *)
  stdout : list string            (* lines printed by fmt.Printf, in order *)
}.

Inductive event :=
| Launch            (* one iteration of the range loop: wg.Add(1); go ... *)
| Run (i : nat)     (* goroutine i executes up to its next program point *)
| Close             (* wg.Wait() returns; close(dataChannel) *)
| Receive.          (* the consumer takes one item from dataChannel *)

Definition set_task (st : state) (i : nat) (t : task) : state :=
  mkState (pending st) (<[i:=t]> (tasks st)) (sem st) (wg st)
          (buffer st) (closed st) (received st) (stdout st).

Section Run.

Variable json_decode : string → DecodeResult.
(** [net i] answers the GET of goroutine [i]. *)
Variable net : nat → Transport.
Variable config : Config.
(** cap(dataChannel). *)
Variable capacity : nat.

(** The record sent for a successful fetch (lines 84-89). *)
Definition record_of (health : HealthResponse) : AggregatedData :=
  {| Application := Health.Application health;
     Version := Health.Version health;
     TotalRequests := Health.RequestCount health;
     TotalSuccesses := Health.SuccessCount health |}.

(** Goroutine [i] moves from program point [t]. *)
Definition run_task (st : state) (i : nat) (t : task) : option state :=
  match t with
  | TEntry server => Some (set_task st i (TAcquire (serverURL server)))
  | TAcquire url =>
      if decide (Z.of_nat (sem st) < MaxConcurrency config) then
        Some (mkState (pending st) (<[i:=TSleep url]> (tasks st)) (S (sem st))
                (wg st) (buffer st) (closed st) (received st) (stdout st))
      else None
  | TSleep url => Some (set_task st i (TFetch url))
  | TFetch url =>
      match fetchHealthData json_decode (net i) url (HTTPTimeout config) with
      | (health, Some err) =>
          Some (mkState (pending st) (<[i:=TRelease]> (tasks st)) (sem st)
                  (wg st) (buffer st) (closed st) (received st)
                  (stdout st ++
                   ["Error fetching data from " +:+ url +:+ ": " +:+ err
                    +:+ newline]))
      | (health, None) => Some (set_task st i (TSend (record_of health)))
      end
  | TSend d =>
      if closed st then None (* send on a closed channel panics *)
      else if decide (length (buffer st) < capacity)%nat then
        Some (mkState (pending st) (<[i:=TRelease]> (tasks st)) (sem st)
                (wg st) (buffer st ++ [d]) (closed st) (received st) (stdout st))
      else if decide (capacity = 0%nat) then
        (* unbuffered channel: the item goes straight to the waiting consumer *)
        Some (mkState (pending st) (<[i:=TRelease]> (tasks st)) (sem st)
                (wg st) (buffer st) (closed st) (received st ++ [d]) (stdout st))
      else None
  | TRelease =>
      match sem st with
      | O => None
      | S n =>
          Some (mkState (pending st) (<[i:=TDone]> (tasks st)) n
                  (wg st) (buffer st) (closed st) (received st) (stdout st))
      end
  | TDone =>
      match wg st with
      | O => None
      | S n =>
          Some (mkState (pending st) (<[i:=TExit]> (tasks st)) (sem st)
                  n (buffer st) (closed st) (received st) (stdout st))
      end
  | TExit => None
  end.

Definition step (st : state) (e : event) : option state :=
  match e with
  | Launch =>
      match pending st with
      | [] => None
      | server :: rest =>
          Some (mkState rest (tasks st ++ [TEntry server]) (sem st) (S (wg st))
                  (buffer st) (closed st) (received st) (stdout st))
      end
  | Run i =>
      match tasks st !! i with
      | Some t => run_task st i t
      | None => None
      end
  | Close =>
      match pending st, wg st, closed st with
      | [], O, false =>
          Some (mkState [] (tasks st) (sem st) O (buffer st) true
                  (received st) (stdout st))
      | _, _, _ => None
      end
  | Receive =>
      match buffer st with
      | [] => None
      | d :: rest =>
          Some (mkState (pending st) (tasks st) (sem st) (wg st) rest
                  (closed st) (received st ++ [d]) (stdout st))
      end
  end.

(** A schedule is run event by event. *)
Fixpoint exec (st : state) (sched : list event) : option state :=
  match sched with
  | [] => Some st
  | e :: sched =>
      match step st e with
      | Some st' => exec st' sched
      | None => None
      end
  end.

(** Entry of the function: [make(chan struct{}, config.MaxConcurrency)]
    panics on a negative size, otherwise the loop starts with nothing
    launched, over an empty open data channel. *)
Definition start (servers : list string) : option state :=
  if decide (MaxConcurrency config < 0) then None
  else Some (mkState servers [] 0 0 [] false [] []).

Definition run (servers : list string) (sched : list event) : option state :=
  match start servers with
  | Some st => exec st sched
  | None => None
  end.

(** The batch is over: the channel is closed and the consumer has drained it. *)
Definition complete (st : state) : bool :=
  closed st && bool_decide (buffer st = []).

(** Number of goroutines inside [fetchHealthData]. *)
Definition is_fetching (t : task) : nat :=
  match t with TFetch _ => 1 | _ => 0 end.

Definition fetching (st : state) : nat := sum_list_with is_fetching (tasks st).

(** What goroutine [i], started on [server], gets from its fetch. *)
Definition outcome (i : nat) (server : string) : HealthResponse * option string :=
  fetchHealthData json_decode (net i) (serverURL server) (HTTPTimeout config).

(** The item goroutine [i] sends: one record if its fetch succeeds, none if
    it fails. *)
Definition item (i : nat) (server : string) : list AggregatedData :=
  match outcome i server with
  | (health, None) => [record_of health]
  | (_, Some _) => []
  end.

(** The line goroutine [i] prints: one if its fetch fails, none otherwise. *)
Definition error_line (i : nat) (server : string) : list string :=
  match outcome i server with
  | (_, None) => []
  | (_, Some err) =>
      ["Error fetching data from " +:+ serverURL server +:+ ": " +:+ err
       +:+ newline]
  end.

(** What the goroutines started on [servers] contribute in all, the first
    of them having index [k]: [f i server] for goroutine [i]. *)
Fixpoint all_from {A} (f : nat → string → list A) (k : nat)
    (servers : list string) : list A :=
  match servers with
  | [] => []
  | server :: rest => f k server ++ all_from f (S k) rest
  end.

(** All items, and all error lines, of a batch over [servers]. *)
Definition items (servers : list string) : list AggregatedData :=
  all_from item 0 servers.

Definition error_lines (servers : list string) : list string :=
  all_from error_line 0 servers.

(** The schedule that runs the goroutines one after the other, the consumer
    taking each item as soon as it is sent. *)
Definition task_events (i : nat) (server : string) : list event :=
  Launch :: Run i :: Run i :: Run i :: Run i ::
  match outcome i server with
  | (_, None) =>
      if decide (capacity = 0%nat) then [Run i; Run i; Run i]
      else [Run i; Receive; Run i; Run i]
  | (_, Some _) => [Run i; Run i]
  end.

Fixpoint sequential_from (k : nat) (servers : list string) : list event :=
  match servers with
  | [] => []
  | server :: rest => task_events k server ++ sequential_from (S k) rest
  end.

Definition sequential (servers : list string) : list event :=
  sequential_from 0 servers ++ [Close].

(** *** Observations on a state, used to state the invariants *)

(** A goroutine holds a permit from its acquire to its release. *)
Definition holding (t : task) : nat :=
  match t with
  | TSleep _ | TFetch _ | TSend _ | TRelease => 1
  | _ => 0
  end.

(** A goroutine counts in the WaitGroup until its [wg.Done()]. *)
Definition live (t : task) : nat :=
  match t with
  | TExit => 0
  | _ => 1
  end.

(** A goroutine is past its fetch and its send or print. *)
Definition reported (t : task) : bool :=
  match t with
  | TRelease | TDone | TExit => true
  | _ => false
  end.

(** Program point [t] of goroutine [i] agrees with the server it was
    started on. *)
Definition task_ok (i : nat) (server : string) (t : task) : Prop :=
  match t with
  | TEntry server' => server' = server
  | TAcquire url | TSleep url | TFetch url => url = serverURL server
  | TSend d => item i server = [d]
  | TRelease | TDone | TExit => True
  end.

(** What the goroutines [ts] started on [servers] have contributed so far,
    the first of them having index [k]: [f i server] for every goroutine [i]
    past its send or print. *)
Fixpoint reported_from {A} (f : nat → string → list A) (k : nat)
    (servers : list string) (ts : list task) : list A :=
  match servers, ts with
  | server :: servers, t :: ts =>
      (if reported t then f k server else [])
      ++ reported_from f (S k) servers ts
  | _, _ => []
  end.

Fixpoint tasks_ok (k : nat) (servers : list string) (ts : list task) : Prop :=
  match servers, ts with
  | server :: servers, t :: ts => task_ok k server t ∧ tasks_ok (S k) servers ts
  | _, [] => True
  | [], _ :: _ => False
  end.

(** Steps a goroutine at program point [t] can still take, counting twice
    the send that also fills a buffer slot. *)
Definition rank (t : task) : nat :=
  match t with
  | TEntry _ => 8
  | TAcquire _ => 7
  | TSleep _ => 6
  | TFetch _ => 5
  | TSend _ => 4
  | TRelease => 2
  | TDone => 1
  | TExit => 0
  end.

(** Bound on the number of events a state can still execute. *)
Definition measure (st : state) : nat :=
  9 * length (pending st) + sum_list_with rank (tasks st)
  + length (buffer st) + (if closed st then 0 else 1).

(** The invariant of a batch over [servers]. *)
Record invariant (servers : list string) (st : state) : Prop := mkInvariant {
  inv_pending : pending st = drop (length (tasks st)) servers;
  inv_tasks : tasks_ok 0 servers (tasks st);
  inv_sem : sem st = sum_list_with holding (tasks st);
  inv_permits : Z.of_nat (sem st) ≤ MaxConcurrency config;
  inv_wg : wg st = sum_list_with live (tasks st);
  inv_channel :
    received st ++ buffer st ≡ₚ reported_from item 0 servers (tasks st);
  inv_stdout : stdout st ≡ₚ reported_from error_line 0 servers (tasks st);
  inv_closed : closed st = true → pending st = [] ∧ wg st = 0%nat
}.

End Run.

End Dispatcher.

(** ** Sample batches *)

(** The defaults of NewDefaultConfig (durations in nanoseconds), and the
    configuration of TestFetchHealthDataWithDelayAndConcurrency. *)
Definition default_config : Config := mkConfig 10000000000 200000000 5.
Definition test_config : Config := mkConfig 10000000000 200000000 2.

(** Three servers: the first two answer like the tests' mock server, the
    third answers 500. *)
Definition sample_servers : list string :=
  [ "server-0001.cloud-ops-interview.sgdev.org";
    "http://127.0.0.1:8080";
    "server-0003.cloud-ops-interview.sgdev.org" ].

Definition sample_net (i : nat) : Transport :=
  match i with
  | 2%nat => mock_500
  | _ => mock_up
  end.

(** Every server is unreachable. *)
Definition down_net (i : nat) : Transport := mock_down.

(** The first two goroutines are inside fetchHealthData, the third has
    reached the semaphore. *)
Definition two_fetching : list Dispatcher.event :=
  [ Dispatcher.Launch; Dispatcher.Launch; Dispatcher.Launch;
    Dispatcher.Run 0; Dispatcher.Run 0; Dispatcher.Run 0;
    Dispatcher.Run 1; Dispatcher.Run 1; Dispatcher.Run 1;
    Dispatcher.Run 2 ].

(** ** Configuration loading (config file, lines 9-55)

    [time.Duration] is an int64 count of nanoseconds; Go's [int] is taken to
    be 64 bits wide.  [os.Getenv] and [strconv.Atoi] belong to the standard
    library: the environment is a function from names to values (the empty
    string for an unset variable), and [Atoi] gives the parsed integer, or
    [None] for a non-nil error. *)

Definition Second : Z := 1000000000.
Definition Millisecond : Z := 1000000.

(** Go's [*] on int64. *)
Definition mul64 (a b : Z) : Z := wrap64 (a * b).

Definition defaultHTTPTimeout : Z := 10 * Second.
Definition defaultRequestDelay : Z := 200 * Millisecond.
Definition defaultMaxConcurrency : Z := 5.

Definition NewDefaultConfig : Config :=
  {| HTTPTimeout := defaultHTTPTimeout;
     RequestDelay := defaultRequestDelay;
     MaxConcurrency := defaultMaxConcurrency |}.

Definition LoadConfigFromEnv (Getenv : string → string)
    (Atoi : string → option Z) : Config :=
  let config := NewDefaultConfig in
  let config :=
    let timeout := Getenv "HTTP_TIMEOUT" in
    if decide (timeout ≠ "") then
      match Atoi timeout with
      | Some v =>
          {| HTTPTimeout := mul64 v Second;
             RequestDelay := RequestDelay config;
             MaxConcurrency := MaxConcurrency config |}
      | None => config
      end
    else config in
  let config :=
    let delay := Getenv "REQUEST_DELAY" in
    if decide (delay ≠ "") then
      match Atoi delay with
      | Some v =>
          {| HTTPTimeout := HTTPTimeout config;
             RequestDelay := mul64 v Millisecond;
             MaxConcurrency := MaxConcurrency config |}
      | None => config
      end
    else config in
  let config :=
    let concurrency := Getenv "MAX_CONCURRENCY" in
    if decide (concurrency ≠ "") then
      match Atoi concurrency with
      | Some v =>
          {| HTTPTimeout := HTTPTimeout config;
             RequestDelay := RequestDelay config;
             MaxConcurrency := v |}
      | None => config
      end
    else config in
  config.

(** ** main, from the channel to the aggregation (main.go, lines 144-153)

    The data channel gets capacity [len(servers)], the dispatcher runs, the
    range loop collects until the channel is closed and drained, and
    [aggregateData] reduces what was collected.  [None]: the schedule does not
    execute, or stops before the range loop has ended. *)
Definition main_aggregation (json_decode : string → DecodeResult)
    (net : nat → Transport) (config : Config) (servers : list string)
    (sched : list Dispatcher.event)
  : option (gmap string (gmap string AggregatedData)) :=
  match Dispatcher.run json_decode net config (length servers) servers sched with
  | Some st =>
      if Dispatcher.complete st
      then Some (Aggregator.aggregateData (Dispatcher.received st))
      else None
  | None => None
  end.

(** A goroutine that has not reached the semaphore's far side. *)
Definition before_permit (t : Dispatcher.task) : Prop :=
  match t with
  | Dispatcher.TEntry _ | Dispatcher.TAcquire _ => True
  | _ => False
  end.

(** A goroutine that has not yet sent or printed. *)
Definition unreported (t : Dispatcher.task) : nat :=
  if Dispatcher.reported t then 0 else 1.

(** ** Sample environments and schedules *)

(** A decimal reader standing for [strconv.Atoi] on the samples. *)
Definition decimal_Atoi (s : string) : option Z :=
  Z.of_int <$> NilZero.int_of_string s.

(** The environment of TestLoadConfigFromEnv. *)
Definition test_env (name : string) : string :=
  if decide (name = "HTTP_TIMEOUT") then "15"
  else if decide (name = "REQUEST_DELAY") then "500"
  else if decide (name = "MAX_CONCURRENCY") then "3"
  else "".

(** Nothing usable is set: one variable is empty, one is not a number. *)
Definition unusable_env (name : string) : string :=
  if decide (name = "REQUEST_DELAY") then "soon" else "".

(** MAX_CONCURRENCY=0. *)
Definition zero_env (name : string) : string :=
  if decide (name = "MAX_CONCURRENCY") then "0" else "".

(** All three goroutines are started first, then run to their end last one
    first; the consumer takes the two items after the channel is closed. *)
Definition reversed : list Dispatcher.event :=
  [ Dispatcher.Launch; Dispatcher.Launch; Dispatcher.Launch;
    Dispatcher.Run 2; Dispatcher.Run 2; Dispatcher.Run 2; Dispatcher.Run 2;
    Dispatcher.Run 2; Dispatcher.Run 2;
    Dispatcher.Run 1; Dispatcher.Run 1; Dispatcher.Run 1; Dispatcher.Run 1;
    Dispatcher.Run 1; Dispatcher.Run 1; Dispatcher.Run 1;
    Dispatcher.Run 0; Dispatcher.Run 0; Dispatcher.Run 0; Dispatcher.Run 0;
    Dispatcher.Run 0; Dispatcher.Run 0; Dispatcher.Run 0;
    Dispatcher.Close; Dispatcher.Receive; Dispatcher.Receive ].

(** The first goroutine is started and run up to its send. *)
Definition first_at_send : list Dispatcher.event :=
  [ Dispatcher.Launch; Dispatcher.Run 0; Dispatcher.Run 0; Dispatcher.Run 0;
    Dispatcher.Run 0 ].

(** The first goroutine is started and reaches the semaphore. *)
Definition first_at_semaphore : list Dispatcher.event :=
  [ Dispatcher.Launch; Dispatcher.Run 0 ].

Definition zero_config : Config := mkConfig 10000000000 200000000 0.
Definition negative_config : Config := mkConfig 10000000000 200000000 (-1).
(** ** Facts on int64 arithmetic *)

Section Int64.

Lemma wrap64_range z : in_int64 (wrap64 z).
Proof.
  unfold in_int64, wrap64, min_int64, max_int64.
  pose proof (Z.mod_pos_bound (z + 2 ^ 63) (2 ^ 64)). lia.
Qed.

Lemma wrap64_id z : in_int64 z → wrap64 z = z.
Proof.
  unfold in_int64, wrap64, min_int64, max_int64. intros Hz.
  rewrite Z.mod_small; lia.
Qed.

Lemma wrap64_add_l a b : wrap64 (wrap64 a + b) = wrap64 (a + b).
Proof.
  unfold wrap64. f_equal.
  replace ((a + 2 ^ 63) mod 2 ^ 64 - 2 ^ 63 + b + 2 ^ 63)
    with ((a + 2 ^ 63) mod 2 ^ 64 + b) by lia.
  rewrite Zplus_mod_idemp_l. f_equal. lia.
Qed.

Lemma wrap64_add_r a b : wrap64 (a + wrap64 b) = wrap64 (a + b).
Proof. rewrite (Z.add_comm a), wrap64_add_l. f_equal. lia. Qed.

Lemma wrap64_above z :
  max_int64 < z → z ≤ max_int64 + 2 ^ 64 → wrap64 z = z - 2 ^ 64.
Proof.
  unfold wrap64, min_int64, max_int64. intros H1 H2.
  replace (z + 2 ^ 63) with (z + 2 ^ 63 - 2 ^ 64 + 1 * 2 ^ 64) by lia.
  rewrite Z_mod_plus_full, Z.mod_small; lia.
Qed.

Lemma wrap64_below z :
  z < min_int64 → min_int64 - 2 ^ 64 ≤ z → wrap64 z = z + 2 ^ 64.
Proof.
  unfold wrap64, min_int64, max_int64. intros H1 H2.
  replace (z + 2 ^ 63) with (z + 2 ^ 63 + 2 ^ 64 + (-1) * 2 ^ 64) by lia.
  rewrite Z_mod_plus_full, Z.mod_small; lia.
Qed.

(** Over int64 operands the wrapping sum is the exact sum, and is the
    saturating sum, exactly when the exact sum is in range. *)
Lemma add64_exact_iff a b : add64 a b = a + b ↔ in_int64 (a + b).
Proof.
  unfold add64. split; [intros <-; apply wrap64_range | apply wrap64_id].
Qed.

Lemma add64_sat_iff a b :
  in_int64 a → in_int64 b →
  add64 a b = sat_add64 a b ↔ in_int64 (a + b).
Proof.
  intros Ha Hb. unfold add64, sat_add64. split.
  - intros Heq. unfold in_int64, min_int64, max_int64 in *.
    destruct (Z_le_gt_dec (a + b) (2 ^ 63 - 1)) as [Hle|Hgt].
    + destruct (Z_le_gt_dec (- 2 ^ 63) (a + b)) as [Hge|Hlt]; [lia|].
      rewrite wrap64_below in Heq
        by (unfold min_int64, max_int64; lia). lia.
    + rewrite wrap64_above in Heq by (unfold min_int64, max_int64; lia). lia.
  - intros Hab. rewrite wrap64_id by done.
    unfold in_int64, min_int64, max_int64 in *. lia.
Qed.

Lemma add64_overflow a b :
  in_int64 a → in_int64 b → max_int64 < a + b →
  add64 a b = a + b - 2 ^ 64 ∧ add64 a b < 0.
Proof.
  intros Ha Hb Hab. unfold add64.
  unfold in_int64, min_int64, max_int64 in *.
  rewrite wrap64_above by (unfold min_int64, max_int64; lia). lia.
Qed.

End Int64.


(** ** Aggregator: per-key characterisation *)

Section AggregatorFacts.
Import Aggregator.

Implicit Types (m : gmap string (gmap string AggregatedData)).
Implicit Types (d : AggregatedData) (data : list AggregatedData).
Implicit Types (app version : string).

Lemma sumZ_app l1 l2 : sumZ (l1 ++ l2) = sumZ l1 + sumZ l2.
Proof. induction l1 as [|x l1 IH]; simpl; [done | rewrite IH; lia]. Qed.

Lemma sumZ_perm l1 l2 : l1 ≡ₚ l2 → sumZ l1 = sumZ l2.
Proof. induction 1; simpl; lia. Qed.

Lemma key_records_perm app version data data' :
  data ≡ₚ data' → key_records app version data ≡ₚ key_records app version data'.
Proof. intros H. unfold key_records. by rewrite H. Qed.

Lemma key_records_app app version data1 data2 :
  key_records app version (data1 ++ data2)
  = key_records app version data1 ++ key_records app version data2.
Proof. apply filter_app. Qed.

Lemma key_records_cons_eq d data :
  key_records (Application d) (Version d) (d :: data)
  = d :: key_records (Application d) (Version d) data.
Proof. unfold key_records. by rewrite filter_cons_True. Qed.

Lemma key_records_cons_ne app version d data :
  ¬ (Application d = app ∧ Version d = version) →
  key_records app version (d :: data) = key_records app version data.
Proof. intros H. unfold key_records. by rewrite filter_cons_False. Qed.

(** The entry written by one iteration, and the entries it leaves alone. *)
Lemma entry_step_eq m d :
  entry (aggregate_step m d) (Application d) (Version d)
  = Some {| Application := Application d;
            Version := Version d;
            TotalRequests :=
              add64 (TotalRequests (default zeroAggregatedData
                       (entry m (Application d) (Version d))))
                    (TotalRequests d);
            TotalSuccesses :=
              add64 (TotalSuccesses (default zeroAggregatedData
                       (entry m (Application d) (Version d))))
                    (TotalSuccesses d) |}.
Proof.
  unfold entry, aggregate_step.
  destruct (m !! Application d) as [versions|] eqn:Hm; simpl.
  - rewrite Hm. simpl. rewrite lookup_insert_eq. simpl.
    by rewrite lookup_insert_eq.
  - rewrite !lookup_insert_eq. simpl. by rewrite lookup_insert_eq.
Qed.

Lemma entry_step_ne m d app version :
  ¬ (Application d = app ∧ Version d = version) →
  entry (aggregate_step m d) app version = entry m app version.
Proof.
  intros Hne. unfold entry, aggregate_step.
  destruct (decide (Application d = app)) as [<-|Happ].
  - assert (Version d ≠ version) as Hv by tauto.
    destruct (m !! Application d) as [versions|] eqn:Hm; simpl.
    + rewrite Hm. simpl. rewrite lookup_insert_eq. simpl.
      by rewrite lookup_insert_ne.
    + rewrite !lookup_insert_eq. simpl.
      rewrite lookup_insert_ne by done. by rewrite lookup_empty.
  - destruct (m !! Application d) as [versions|] eqn:Hm; simpl.
    + by rewrite lookup_insert_ne.
    + by rewrite !lookup_insert_ne.
Qed.

Lemma inner_nonempty_step m d :
  inner_nonempty m → inner_nonempty (aggregate_step m d).
Proof.
  intros Hm app versions. unfold aggregate_step.
  destruct (decide (Application d = app)) as [<-|Happ].
  - rewrite lookup_insert_eq. intros [= <-]. apply insert_non_empty.
  - rewrite lookup_insert_ne by done.
    destruct (m !! Application d); [|rewrite lookup_insert_ne by done];
      apply Hm.
Qed.

Lemma inner_nonempty_fold data m :
  inner_nonempty m → inner_nonempty (fold_left aggregate_step data m).
Proof.
  revert m. induction data as [|d data IH]; intros m Hm; simpl; [done|].
  by apply IH, inner_nonempty_step.
Qed.

Lemma inner_nonempty_aggregateData data : inner_nonempty (aggregateData data).
Proof. apply inner_nonempty_fold. intros app versions. by rewrite lookup_empty. Qed.

(** The loop, started from any accumulator [m]. *)
Lemma entry_fold data m app version :
  entry (fold_left aggregate_step data m) app version
  = match key_records app version data with
    | [] => entry m app version
    | _ :: _ =>
        Some {| Application := app;
                Version := version;
                TotalRequests :=
                  wrap64 (TotalRequests (default zeroAggregatedData (entry m app version))
                          + sumZ (TotalRequests <$> key_records app version data));
                TotalSuccesses :=
                  wrap64 (TotalSuccesses (default zeroAggregatedData (entry m app version))
                          + sumZ (TotalSuccesses <$> key_records app version data)) |}
    end.
Proof.
  revert m. induction data as [|d data IH]; intros m; simpl; [done|].
  rewrite IH.
  destruct (decide (Application d = app ∧ Version d = version)) as [[<- <-]|Hne].
  - rewrite key_records_cons_eq, entry_step_eq. simpl.
    destruct (key_records (Application d) (Version d) data) as [|d' krs]; simpl.
    + unfold add64. by rewrite !Z.add_0_r.
    + unfold add64. rewrite !wrap64_add_l. do 2 f_equal; f_equal; lia.
  - rewrite key_records_cons_ne, entry_step_ne by done. done.
Qed.

Lemma entry_aggregateData data app version :
  entry (aggregateData data) app version
  = match key_records app version data with
    | [] => None
    | _ :: _ =>
        Some {| Application := app;
                Version := version;
                TotalRequests :=
                  wrap64 (sumZ (TotalRequests <$> key_records app version data));
                TotalSuccesses :=
                  wrap64 (sumZ (TotalSuccesses <$> key_records app version data)) |}
    end.
Proof.
  unfold aggregateData. rewrite entry_fold.
  unfold entry at 1 2 3. rewrite lookup_empty. done.
Qed.

(** Two aggregations without empty version maps are equal as soon as their
    entries agree. *)
Lemma aggregation_eq m1 m2 :
  inner_nonempty m1 → inner_nonempty m2 →
  (∀ app version, entry m1 app version = entry m2 app version) →
  m1 = m2.
Proof.
  intros H1 H2 He. apply map_eq. intros app.
  assert (∀ ma mb, inner_nonempty ma →
            (∀ version, entry ma app version = entry mb app version) →
            ∀ va, ma !! app = Some va → ∃ vb, mb !! app = Some vb) as Hex.
  { intros ma mb Hn Hab va Hva.
    destruct (map_choose va (Hn _ _ Hva)) as (version & x & Hx).
    specialize (Hab version). unfold entry in Hab. rewrite Hva in Hab. simpl in Hab.
    rewrite Hx in Hab. destruct (mb !! app); [eauto | done]. }
  destruct (m1 !! app) as [v1|] eqn:E1, (m2 !! app) as [v2|] eqn:E2.
  - f_equal. apply map_eq. intros version. specialize (He app version).
    unfold entry in He. by rewrite E1, E2 in He.
  - destruct (Hex m1 m2 H1 (He app) v1 E1) as [? ?]; congruence.
  - destruct (Hex m2 m1 H2 (λ v, eq_sym (He app v)) v2 E2) as [? ?]; congruence.
  - done.
Qed.

End AggregatorFacts.

(** ** Aggregator: the claims *)

Section AggregatorClaims.
Import Aggregator.

Implicit Types (m : gmap string (gmap string AggregatedData)).
Implicit Types (d : AggregatedData) (data : list AggregatedData).
Implicit Types (app version : string).

Lemma occurs_key_records app version data :
  occurs app version data ↔ key_records app version data ≠ [].
Proof.
  unfold occurs, key_records. split.
  - intros (d & Hd & Ha & Hv) Hnil.
    assert (d ∈ filter (λ d, Application d = app ∧ Version d = version) data) as Hin
      by (apply list_elem_of_filter; auto).
    rewrite Hnil in Hin. by apply not_elem_of_nil in Hin.
  - destruct (filter _ data) as [|d krs] eqn:E; [done|]. intros _.
    assert (d ∈ filter (λ d, Application d = app ∧ Version d = version) data) as Hin
      by (rewrite E; apply list_elem_of_here).
    apply list_elem_of_filter in Hin as [[Ha Hv] Hd]. eauto.
Qed.

Lemma running_aggregateData data app version :
  running data app version
  = match key_records app version data with
    | [] => zeroAggregatedData
    | _ :: _ =>
        {| Application := app;
           Version := version;
           TotalRequests :=
             wrap64 (sumZ (TotalRequests <$> key_records app version data));
           TotalSuccesses :=
             wrap64 (sumZ (TotalSuccesses <$> key_records app version data)) |}
    end.
Proof.
  unfold running. rewrite entry_aggregateData.
  by destruct (key_records app version data).
Qed.

(** The running totals after one more record. *)
Lemma running_snoc data d :
  running (data ++ [d]) (Application d) (Version d)
  = {| Application := Application d;
       Version := Version d;
       TotalRequests :=
         add64 (TotalRequests (running data (Application d) (Version d)))
               (TotalRequests d);
       TotalSuccesses :=
         add64 (TotalSuccesses (running data (Application d) (Version d)))
               (TotalSuccesses d) |}.
Proof.
  unfold running at 1. unfold aggregateData. rewrite fold_left_app. simpl.
  by rewrite entry_step_eq.
Qed.

(** C2 (as amended): a key that does not occur in the input is absent from
    the mapping; a key that occurs is present, its TotalRequests is the sum of
    the TotalRequests fields of the input records with that key reduced to
    int64 by wrap-around, hence the exact sum whenever the exact sum lies in
    the int64 range, and likewise for TotalSuccesses. *)
Theorem aggregateData_key_totals data app version :
  (¬ occurs app version data → entry (aggregateData data) app version = None)
  ∧ (occurs app version data →
     ∃ r, entry (aggregateData data) app version = Some r
       ∧ TotalRequests r
         = wrap64 (sumZ (TotalRequests <$> key_records app version data))
       ∧ TotalSuccesses r
         = wrap64 (sumZ (TotalSuccesses <$> key_records app version data))
       ∧ (in_int64 (sumZ (TotalRequests <$> key_records app version data)) →
          TotalRequests r = sumZ (TotalRequests <$> key_records app version data))
       ∧ (in_int64 (sumZ (TotalSuccesses <$> key_records app version data)) →
          TotalSuccesses r = sumZ (TotalSuccesses <$> key_records app version data))).
Proof.
  rewrite occurs_key_records, entry_aggregateData.
  destruct (key_records app version data) as [|d krs] eqn:E.
  - split; [done|]. intros H. by destruct H.
  - split; [intros H; by destruct H|]. intros _.
    eexists. split; [reflexivity|]. simpl.
    repeat split; auto using wrap64_id.
Qed.

(** The records of TestAggregateData: the key is present with the exact sums
    6194800029 and 4951986778. *)
Lemma aggregateData_key_totals_witness :
  occurs "Memcache2" "1.0.1" test_data
  ∧ ∃ r, entry (aggregateData test_data) "Memcache2" "1.0.1" = Some r
       ∧ TotalRequests r = 6194800029
       ∧ TotalSuccesses r = 4951986778.
Proof.
  assert (occurs "Memcache2" "1.0.1" test_data) as Hocc.
  { eexists. split; [apply list_elem_of_here|]. split; reflexivity. }
  split; [exact Hocc|].
  destruct (aggregateData_key_totals test_data "Memcache2" "1.0.1") as [_ H].
  destruct (H Hocc) as (r & Hr & _ & _ & Hreq & Hsucc).
  exists r. split; [exact Hr|]. split.
  - apply Hreq. vm_compute. split; discriminate.
  - apply Hsucc. vm_compute. split; discriminate.
Defined.

(** C2 (as stated) fails when the exact sum leaves the int64 range: two
    records of 5e18 requests each give -8446744073709551616, not 1e19. *)
Lemma aggregateData_exact_sum_counterexample :
  occurs "App" "V1" large_data
  ∧ entry (aggregateData large_data) "App" "V1"
    = Some (mkAggregatedData "App" "V1" (-8446744073709551616) 8000000000000000000)
  ∧ sumZ (TotalRequests <$> key_records "App" "V1" large_data)
    = 10000000000000000000
  ∧ ¬ (∀ r, entry (aggregateData large_data) "App" "V1" = Some r →
         TotalRequests r = sumZ (TotalRequests <$> key_records "App" "V1" large_data)).
Proof.
  split; [|split; [|split]].
  - eexists. split; [apply list_elem_of_here|]. split; reflexivity.
  - vm_compute. reflexivity.
  - vm_compute. reflexivity.
  - intros H. specialize (H _ eq_refl). vm_compute in H. discriminate H.
Qed.

Lemma running_in_int64 data app version :
  in_int64 (TotalRequests (running data app version))
  ∧ in_int64 (TotalSuccesses (running data app version)).
Proof.
  rewrite running_aggregateData.
  destruct (key_records app version data); simpl.
  - unfold in_int64, min_int64, max_int64. lia.
  - split; apply wrap64_range.
Qed.

(** C4 (as amended): for records whose counters are int64 values, every
    accumulation step is Go's wrapping int64 addition: the new total is the
    old total plus the record's counter reduced modulo 2^64 into the int64
    range; it is the exact sum, and it agrees with saturating addition,
    exactly when that sum lies in the int64 range; and when the sum exceeds
    the maximum int64 the stored total is the sum minus 2^64, a negative
    value. *)
Theorem accumulation_step_wraps data d :
  in_int64 (TotalRequests d) → in_int64 (TotalSuccesses d) →
  let old := running data (Application d) (Version d) in
  let new := running (data ++ [d]) (Application d) (Version d) in
  TotalRequests new = wrap64 (TotalRequests old + TotalRequests d)
  ∧ TotalSuccesses new = wrap64 (TotalSuccesses old + TotalSuccesses d)
  ∧ (TotalRequests new = TotalRequests old + TotalRequests d
     ↔ in_int64 (TotalRequests old + TotalRequests d))
  ∧ (TotalSuccesses new = TotalSuccesses old + TotalSuccesses d
     ↔ in_int64 (TotalSuccesses old + TotalSuccesses d))
  ∧ (TotalRequests new = sat_add64 (TotalRequests old) (TotalRequests d)
     ↔ in_int64 (TotalRequests old + TotalRequests d))
  ∧ (TotalSuccesses new = sat_add64 (TotalSuccesses old) (TotalSuccesses d)
     ↔ in_int64 (TotalSuccesses old + TotalSuccesses d))
  ∧ (max_int64 < TotalRequests old + TotalRequests d →
     TotalRequests new = TotalRequests old + TotalRequests d - 2 ^ 64
     ∧ TotalRequests new < 0)
  ∧ (max_int64 < TotalSuccesses old + TotalSuccesses d →
     TotalSuccesses new = TotalSuccesses old + TotalSuccesses d - 2 ^ 64
     ∧ TotalSuccesses new < 0).
Proof.
  intros Hr Hs old new. subst new. rewrite running_snoc. simpl.
  destruct (running_in_int64 data (Application d) (Version d)) as [Hor Hos].
  fold old in Hor, Hos |- *.
  split; [done|]. split; [done|].
  split; [apply add64_exact_iff|]. split; [apply add64_exact_iff|].
  split; [by apply add64_sat_iff|]. split; [by apply add64_sat_iff|].
  split; by apply add64_overflow.
Qed.

(** A step inside the int64 range, on the records of TestAggregateData, and
    the step from 2^63-1 by 1, which wraps to -2^63. *)
Lemma accumulation_step_wraps_witness :
  TotalRequests (running ([test_first] ++ [test_second]) "Memcache2" "1.0.1")
  = sat_add64 5194800029 1000000000
  ∧ TotalRequests (running (overflow_data ++ [overflow_rec]) "App" "V1")
    = max_int64 + 1 - 2 ^ 64.
Proof.
  split.
  - pose proof (accumulation_step_wraps [test_first] test_second) as H.
    simpl in H.
    destruct H as (_ & _ & _ & _ & H & _);
      [vm_compute; split; discriminate | vm_compute; split; discriminate |].
    apply H. vm_compute. split; discriminate.
  - pose proof (accumulation_step_wraps overflow_data overflow_rec) as H.
    simpl in H.
    destruct H as (_ & _ & _ & _ & _ & _ & H & _);
      [vm_compute; split; discriminate | vm_compute; split; discriminate |].
    apply H. vm_compute. reflexivity.
Defined.

(** C4 (as stated) fails: with a running total of 2^63-1, adding 1 stores
    -2^63, where saturating addition would keep 2^63-1. *)
Lemma saturating_accumulation_counterexample :
  TotalRequests (running overflow_data "App" "V1") = max_int64
  ∧ TotalRequests (running (overflow_data ++ [overflow_rec]) "App" "V1") = min_int64
  ∧ sat_add64 max_int64 1 = max_int64
  ∧ ¬ saturating_step overflow_data overflow_rec.
Proof.
  split; [|split; [|split]]; try (vm_compute; reflexivity).
  intros [H _]. vm_compute in H. discriminate H.
Qed.

(** C7: aggregation does not depend on the order of its input: the mappings
    built from a sequence and from any permutation of it are equal. *)
Theorem aggregateData_permutation data data' :
  data ≡ₚ data' → aggregateData data = aggregateData data'.
Proof.
  intros Hp. apply aggregation_eq; try apply inner_nonempty_aggregateData.
  intros app version. rewrite !entry_aggregateData.
  pose proof (key_records_perm app version _ _ Hp) as Hk.
  assert (sumZ (TotalRequests <$> key_records app version data)
          = sumZ (TotalRequests <$> key_records app version data')) as ->
    by (apply sumZ_perm; by rewrite Hk).
  assert (sumZ (TotalSuccesses <$> key_records app version data)
          = sumZ (TotalSuccesses <$> key_records app version data')) as ->
    by (apply sumZ_perm; by rewrite Hk).
  destruct (key_records app version data) as [|x l],
           (key_records app version data') as [|x' l']; try done.
  - by apply Permutation_nil_cons in Hk.
  - symmetry in Hk. by apply Permutation_nil_cons in Hk.
Qed.

Lemma aggregateData_permutation_witness :
  aggregateData (overflow_rec :: test_data)
  = aggregateData (test_data ++ [overflow_rec]).
Proof.
  apply aggregateData_permutation. apply Permutation_cons_append.
Defined.

Lemma inner_nonempty_merge add m1 m2 :
  inner_nonempty m1 → inner_nonempty m2 → inner_nonempty (merge_with add m1 m2).
Proof.
  intros H1 H2 app versions. unfold merge_with. rewrite lookup_union_with.
  destruct (m1 !! app) as [v1|] eqn:E1, (m2 !! app) as [v2|] eqn:E2;
    simpl; intros [= <-]; eauto.
  destruct (map_choose v1 (H1 _ _ E1)) as (version & x & Hx).
  intros Hempty.
  assert (union_with (λ a b, Some (sum_totals add a b)) v1 v2 !! version = None)
    as Hn by (rewrite Hempty; apply lookup_empty).
  rewrite lookup_union_with, Hx in Hn. by destruct (v2 !! version).
Qed.

Lemma entry_merge add m1 m2 app version :
  entry (merge_with add m1 m2) app version
  = union_with (λ a b, Some (sum_totals add a b))
      (entry m1 app version) (entry m2 app version).
Proof.
  unfold entry, merge_with. rewrite lookup_union_with.
  destruct (m1 !! app) as [v1|], (m2 !! app) as [v2|]; simpl; try done.
  - by rewrite lookup_union_with.
  - by destruct (v1 !! version).
  - by destruct (v2 !! version).
Qed.

(** Merging with the aggregator's own addition commutes with concatenation. *)
Lemma merge_wrapping_aggregateData dataA dataB :
  merge_wrapping (aggregateData dataA) (aggregateData dataB)
  = aggregateData (dataA ++ dataB).
Proof.
  apply aggregation_eq.
  - apply inner_nonempty_merge; apply inner_nonempty_aggregateData.
  - apply inner_nonempty_aggregateData.
  - intros app version. unfold merge_wrapping.
    rewrite entry_merge, !entry_aggregateData, key_records_app.
    destruct (key_records app version dataA) as [|a la],
             (key_records app version dataB) as [|b lb]; try done.
    + by rewrite app_nil_r.
    + rewrite !fmap_app, !sumZ_app.
      generalize (sumZ (TotalRequests <$> a :: la)),
                 (sumZ (TotalSuccesses <$> a :: la)),
                 (sumZ (TotalRequests <$> b :: lb)),
                 (sumZ (TotalSuccesses <$> b :: lb)).
      intros ra sa rb sb. simpl. unfold sum_totals, add64. simpl.
      by rewrite !wrap64_add_l, !wrap64_add_r.
Qed.

(** Exact and wrapping merges agree exactly when no shared key overflows. *)
Lemma merge_exact_wrapping m1 m2 :
  inner_nonempty m1 → inner_nonempty m2 →
  merge_exact m1 m2 = merge_wrapping m1 m2 ↔ sums_in_int64 m1 m2.
Proof.
  intros H1 H2. unfold merge_exact, merge_wrapping. split.
  - intros Heq app version a b Ha Hb.
    apply (f_equal (λ m, entry m app version)) in Heq.
    rewrite !entry_merge, Ha, Hb in Heq. simpl in Heq.
    injection Heq as Hr Hs.
    split; apply add64_exact_iff; congruence.
  - intros Hsums. apply aggregation_eq; try by apply inner_nonempty_merge.
    intros app version. rewrite !entry_merge.
    destruct (entry m1 app version) as [a|] eqn:Ha,
             (entry m2 app version) as [b|] eqn:Hb; try done.
    destruct (Hsums _ _ _ _ Ha Hb) as [Hr Hs]. simpl.
    unfold sum_totals. by rewrite !(proj2 (add64_exact_iff _ _)).
Qed.

(** C8 (as amended): aggregating two record sequences separately and summing
    the two mappings per key with the wrapping int64 addition that
    aggregateData itself uses gives the mapping of the concatenated sequence;
    with exact per-key sums the two mappings are equal exactly when, for every
    key the two sides share, the exact sums of the two totals lie in the int64
    range. *)
Theorem aggregateData_merge dataA dataB :
  merge_wrapping (aggregateData dataA) (aggregateData dataB)
  = aggregateData (dataA ++ dataB)
  ∧ (merge_exact (aggregateData dataA) (aggregateData dataB)
     = aggregateData (dataA ++ dataB)
     ↔ sums_in_int64 (aggregateData dataA) (aggregateData dataB)).
Proof.
  split; [apply merge_wrapping_aggregateData|].
  rewrite <- merge_wrapping_aggregateData.
  apply merge_exact_wrapping; apply inner_nonempty_aggregateData.
Qed.

(** The two records of TestAggregateData, aggregated apart and summed
    exactly. *)
Lemma aggregateData_merge_witness :
  sums_in_int64 (aggregateData [test_first]) (aggregateData [test_second])
  ∧ merge_exact (aggregateData [test_first]) (aggregateData [test_second])
    = aggregateData ([test_first] ++ [test_second]).
Proof.
  assert (sums_in_int64 (aggregateData [test_first])
            (aggregateData [test_second])) as Hsums.
  { intros app version a b Ha Hb.
    rewrite entry_aggregateData in Ha, Hb. unfold key_records in Ha, Hb.
    rewrite filter_cons, filter_nil in Ha, Hb.
    repeat case_decide; simplify_eq/=.
    vm_compute. repeat split; discriminate. }
  split; [exact Hsums|].
  by apply (aggregateData_merge [test_first] [test_second]).
Defined.

(** C8 (as stated) fails when a per-key sum overflows: a total of 2^63-1
    merged with a total of 1 gives 2^63 as the exact sum and 2^63-1 as the
    saturating sum, while aggregating the concatenation stores -2^63. *)
Lemma merge_sum_counterexample :
  entry (merge_exact (aggregateData overflow_data) (aggregateData [overflow_rec]))
    "App" "V1"
  = Some (mkAggregatedData "App" "V1" 9223372036854775808 9223372036854775808)
  ∧ entry (merge_saturating (aggregateData overflow_data)
             (aggregateData [overflow_rec])) "App" "V1"
    = Some (mkAggregatedData "App" "V1" max_int64 max_int64)
  ∧ entry (aggregateData (overflow_data ++ [overflow_rec])) "App" "V1"
    = Some (mkAggregatedData "App" "V1" min_int64 min_int64)
  ∧ merge_exact (aggregateData overflow_data) (aggregateData [overflow_rec])
    ≠ aggregateData (overflow_data ++ [overflow_rec])
  ∧ merge_saturating (aggregateData overflow_data) (aggregateData [overflow_rec])
    ≠ aggregateData (overflow_data ++ [overflow_rec]).
Proof.
  split; [vm_compute; reflexivity|]. split; [vm_compute; reflexivity|].
  split; [vm_compute; reflexivity|].
  split; intros Heq; apply (f_equal (λ m, entry m "App" "V1")) in Heq;
    vm_compute in Heq; discriminate Heq.
Qed.

(** C10: every entry of the mapping returned by aggregateData is stored
    under its own application and version, and no application maps to an
    empty version map. *)
Theorem aggregateData_key_consistent data app versions :
  aggregateData data !! app = Some versions →
  versions ≠ ∅
  ∧ ∀ version r, versions !! version = Some r →
      Application r = app ∧ Version r = version.
Proof.
  intros Hv. split; [by eapply inner_nonempty_aggregateData|].
  intros version r Hr.
  pose proof (entry_aggregateData data app version) as He.
  unfold entry in He. rewrite Hv in He. simpl in He. rewrite Hr in He.
  destruct (key_records app version data); [done|].
  by injection He as ->.
Qed.

Lemma aggregateData_key_consistent_witness :
  ∃ versions, aggregateData test_data !! "Memcache2" = Some versions
    ∧ versions ≠ ∅
    ∧ ∀ version r, versions !! version = Some r →
        Application r = "Memcache2" ∧ Version r = version.
Proof.
  eexists. split; [vm_compute; reflexivity|].
  apply (aggregateData_key_consistent test_data). vm_compute. reflexivity.
Defined.

End AggregatorClaims.

(** ** Normalisation and fetch: the claims *)

Section Normalisation.

Lemma prefix_append p s t :
  String.prefix p s = true → String.prefix p (s +:+ t) = true.
Proof.
  revert s. induction p as [|c p IH]; intros s Hp; [by destruct (s +:+ t)|].
  destruct s as [|c' s]; simpl in Hp; [discriminate|].
  change (String c' s +:+ t) with (String c' (s +:+ t)). simpl.
  destruct (Ascii.ascii_dec c c'); [by apply IH | discriminate].
Qed.

Lemma withScheme_has_scheme server :
  String.prefix "http://" (withScheme server) = true
  ∨ String.prefix "https://" (withScheme server) = true.
Proof.
  unfold withScheme.
  destruct (String.prefix "http://" server) eqn:E1; simpl; [by left|].
  destruct (String.prefix "https://" server) eqn:E2; simpl; [by right|].
  right. destruct server; reflexivity.
Qed.

Lemma withScheme_fixed server :
  String.prefix "http://" server = true ∨ String.prefix "https://" server = true →
  withScheme server = server.
Proof.
  unfold withScheme. intros [-> | ->]; simpl; [done|].
  by rewrite andb_false_r.
Qed.

Lemma serverURL_has_scheme server :
  String.prefix "http://" (serverURL server) = true
  ∨ String.prefix "https://" (serverURL server) = true.
Proof.
  unfold serverURL.
  destruct (withScheme_has_scheme server); [left | right]; by apply prefix_append.
Qed.

(** C3 (as amended): the scheme check is idempotent and leaves a host that
    starts with http:// or https:// unchanged; one normalisation of such a
    host only appends /healthz, one normalisation of any other host prepends
    https:// and appends /healthz; the status path is appended at every
    application, so normalising twice gives the once-normalised address
    followed by a second /healthz. *)
Theorem serverURL_normalisation server :
  withScheme (withScheme server) = withScheme server
  ∧ serverURL (serverURL server) = serverURL server +:+ "/healthz"
  ∧ (String.prefix "http://" server = true ∨ String.prefix "https://" server = true →
     serverURL server = server +:+ "/healthz")
  ∧ (String.prefix "http://" server = false → String.prefix "https://" server = false →
     serverURL server = "https://" +:+ server +:+ "/healthz").
Proof.
  split; [|split; [|split]].
  - apply withScheme_fixed, withScheme_has_scheme.
  - unfold serverURL at 1. f_equal. apply withScheme_fixed, serverURL_has_scheme.
  - intros H. unfold serverURL. by rewrite withScheme_fixed.
  - intros H1 H2. unfold serverURL, withScheme. by rewrite H1, H2.
Qed.

Lemma serverURL_normalisation_witness :
  serverURL "http://127.0.0.1:8080" = "http://127.0.0.1:8080/healthz"
  ∧ serverURL sample_host
    = "https://server-0001.cloud-ops-interview.sgdev.org/healthz".
Proof.
  split.
  - apply (serverURL_normalisation "http://127.0.0.1:8080"). left. reflexivity.
  - apply (serverURL_normalisation sample_host); reflexivity.
Defined.

(** C3 (as stated) fails: normalising an address twice appends the status
    path twice. *)
Lemma serverURL_idempotent_counterexample :
  serverURL sample_host
  = "https://server-0001.cloud-ops-interview.sgdev.org/healthz"
  ∧ serverURL (serverURL sample_host)
    = "https://server-0001.cloud-ops-interview.sgdev.org/healthz/healthz"
  ∧ serverURL (serverURL sample_host) ≠ serverURL sample_host.
Proof. split; [|split]; [reflexivity | reflexivity | discriminate]. Qed.

End Normalisation.

Section Fetch.

Variable json_decode : string → DecodeResult.

(** C6: for a normalised URL and a positive timeout, fetchHealthData returns
    a non-nil error exactly when the GET fails, the status is not 200 or the
    body does not decode; the error message contains the URL; the function is
    total (it always returns its pair, there is no other exit); and when the
    error is nil the returned record is the decoder's result on the body of a
    200 response, unchanged. *)
Theorem fetchHealthData_outcome (client_Get : Transport) (url : string) (timeout : Z) :
  0 < timeout →
  ∃ health err,
    fetchHealthData json_decode client_Get url timeout = (health, err)
    ∧ (is_Some err ↔ fetch_fails json_decode (client_Get url timeout))
    ∧ (∀ msg, err = Some msg →
         ∃ before after, msg = before +:+ url +:+ after ∧ after ≠ "")
    ∧ (err = None →
         ∃ Body, client_Get url timeout = GetResponse StatusOK Body
               ∧ decode_err (json_decode Body) = None
               ∧ health = decoded (json_decode Body)).
Proof.
  intros _. unfold fetchHealthData, fetch_fails.
  destruct (client_Get url timeout) as [e|code body].
  - do 2 eexists. split; [reflexivity|]. split; [|split].
    + split; [done | eauto].
    + intros msg [= <-]. by exists "failed to reach server ", (": " +:+ e).
    + done.
  - destruct (Z.eqb_spec code StatusOK) as [->|Hne]; simpl.
    + destruct (decode_err (json_decode body)) as [e|] eqn:Hd.
      * do 2 eexists. split; [reflexivity|]. split; [|split].
        -- split; [eauto | eauto].
        -- intros msg [= <-].
           by exists "failed to decode JSON from server ",
                  (": " +:+ e +:+ ". Response: " +:+ unread (json_decode body)).
        -- done.
      * do 2 eexists. split; [reflexivity|]. split; [|split].
        -- split; [by intros [? ?] | intros [? | [? ?]]; done].
        -- done.
        -- intros _. eauto.
    + do 2 eexists. split; [reflexivity|]. split; [|split].
      * split; [auto | eauto].
      * intros msg [= <-].
        by exists "server ",
               (" returned status " +:+ fmt_d code +:+ ": " +:+ body).
      * done.
Qed.

End Fetch.

(** The mock server of the tests, a server answering 500 and an unreachable
    server, with the default timeout of 10 s (in nanoseconds). *)
Lemma fetchHealthData_outcome_witness :
  (∃ health err,
     fetchHealthData mock_decode mock_500 "https://h/healthz" 10000000000
     = (health, err) ∧ is_Some err)
  ∧ fetchHealthData mock_decode mock_up "https://h/healthz" 10000000000
    = (mock_health, None)
  ∧ fetchHealthData mock_decode mock_500 "https://h/healthz" 10000000000
    = (zeroHealthResponse,
       Some "server https://h/healthz returned status 500: internal error").
Proof.
  split; [|split; reflexivity].
  destruct (fetchHealthData_outcome mock_decode mock_500 "https://h/healthz"
              10000000000 eq_refl) as (health & err & Hf & Hfail & _).
  exists health, err. split; [exact Hf|]. apply Hfail. simpl. left. discriminate.
Defined.

(** ** Dispatcher: list facts behind the invariant *)

Section TaskLists.
Import Dispatcher.
Local Open Scope nat_scope.

Lemma sum_list_insert (w : task → nat) (ts : list task) i t t' :
  ts !! i = Some t →
  sum_list_with w (<[i:=t']> ts) + w t = sum_list_with w ts + w t'.
Proof.
  revert i. induction ts as [|x ts IH]; intros [|i] H; simplify_eq/=; [lia|].
  specialize (IH _ H). lia.
Qed.

Lemma sum_list_lookup_le (w : task → nat) (ts : list task) i t :
  ts !! i = Some t → w t ≤ sum_list_with w ts.
Proof.
  revert i. induction ts as [|x ts IH]; intros [|i] H; simplify_eq/=; [lia|].
  specialize (IH _ H). lia.
Qed.

Lemma sum_list_snoc (w : task → nat) (ts : list task) t :
  sum_list_with w (ts ++ [t]) = sum_list_with w ts + w t.
Proof. rewrite sum_list_with_app. simpl. lia. Qed.

Context {A : Type} (f : nat → string → list A).

Lemma reported_from_insert_same k servers (ts : list task) i t t' :
  ts !! i = Some t → reported t' = reported t →
  reported_from f k servers (<[i:=t']> ts) = reported_from f k servers ts.
Proof.
  revert k ts i. induction servers as [|s servers IH]; intros k ts i Ht Hr.
  - by destruct ts, i.
  - destruct ts as [|x ts]; [done|]. destruct i as [|i]; simplify_eq/=.
    + by rewrite Hr.
    + f_equal. by eapply IH.
Qed.

Lemma reported_from_insert_new k servers (ts : list task) i t t' s :
  ts !! i = Some t → servers !! i = Some s →
  reported t = false → reported t' = true →
  reported_from f k servers (<[i:=t']> ts)
  ≡ₚ reported_from f k servers ts ++ f (k + i) s.
Proof.
  revert k ts i. induction servers as [|s0 servers IH]; intros k ts i Ht Hs Hf Hn.
  - by destruct i.
  - destruct ts as [|x ts]; [done|]. destruct i as [|i]; simplify_eq/=.
    + rewrite Hf, Hn, Nat.add_0_r. simpl. apply Permutation_app_comm.
    + rewrite (IH (S k) ts i) by done.
      replace (S k + i) with (k + S i) by lia. by rewrite (assoc_L (++)).
Qed.

Lemma reported_from_snoc k servers (ts : list task) t :
  reported t = false →
  reported_from f k servers (ts ++ [t]) = reported_from f k servers ts.
Proof.
  revert k ts. induction servers as [|s servers IH]; intros k ts Hr.
  - by destruct ts.
  - destruct ts as [|x ts]; simpl.
    + rewrite Hr. by destruct servers.
    + f_equal. by apply IH.
Qed.

Lemma reported_from_all k servers (ts : list task) :
  sum_list_with live ts = 0 → length ts = length servers →
  reported_from f k servers ts = all_from f k servers.
Proof.
  revert k ts. induction servers as [|s servers IH]; intros k ts Hl Hlen.
  - by destruct ts.
  - destruct ts as [|x ts]; [done|]. simpl in *.
    destruct x; simpl in *; try lia. f_equal. apply IH; lia.
Qed.

End TaskLists.

(** ** Dispatcher: the invariant holds in every reachable state *)

Section DispatcherInvariant.
Import Dispatcher.

Variable json_decode : string → DecodeResult.
Variable net : nat → Transport.
Variable config : Config.
Variable capacity : nat.
Variable servers : list string.

Local Abbreviation step := (step json_decode net config capacity).
Local Abbreviation exec := (exec json_decode net config capacity).
Local Abbreviation run := (run json_decode net config capacity).
Local Abbreviation invariant := (invariant json_decode net config servers).
Local Abbreviation task_ok := (task_ok json_decode net config).
Local Abbreviation tasks_ok := (tasks_ok json_decode net config).
Local Abbreviation item := (item json_decode net config).
Local Abbreviation error_line := (error_line json_decode net config).
Local Abbreviation outcome := (outcome json_decode net config).

Lemma tasks_ok_lookup k srvs ts i t :
  tasks_ok k srvs ts → ts !! i = Some t →
  ∃ s, srvs !! i = Some s ∧ task_ok (k + i)%nat s t.
Proof.
  revert k ts i. induction srvs as [|s srvs IH]; intros k ts i Hok Ht.
  - destruct ts; [by destruct i | done].
  - destruct ts as [|x ts]; [by destruct i|]. destruct Hok as [Hx Hok].
    destruct i as [|i]; simplify_eq/=.
    + exists s. by rewrite Nat.add_0_r.
    + destruct (IH _ _ _ Hok Ht) as (s' & Hs' & Hok').
      exists s'. split; [done|]. by replace (k + S i)%nat with (S k + i)%nat by lia.
Qed.

Lemma tasks_ok_insert k srvs ts i t' :
  tasks_ok k srvs ts →
  (∀ s, srvs !! i = Some s → task_ok (k + i)%nat s t') →
  tasks_ok k srvs (<[i:=t']> ts).
Proof.
  revert k ts i. induction srvs as [|s srvs IH]; intros k ts i Hok Hnew.
  - destruct ts; [by destruct i | done].
  - destruct ts as [|x ts]; [by destruct i|]. destruct Hok as [Hx Hok].
    destruct i as [|i]; simpl.
    + split; [|done]. specialize (Hnew s eq_refl). by rewrite Nat.add_0_r in Hnew.
    + split; [done|]. apply IH; [done|]. intros s' Hs'.
      replace (S k + i)%nat with (k + S i)%nat by lia. by apply Hnew.
Qed.

Lemma tasks_ok_length k srvs ts :
  tasks_ok k srvs ts → (length ts ≤ length srvs)%nat.
Proof.
  revert k ts. induction srvs as [|s srvs IH]; intros k [|x ts] Hok; simpl in *;
    try lia; try done.
  destruct Hok as [_ Hok]. apply IH in Hok. lia.
Qed.

Lemma tasks_ok_snoc k srvs ts s :
  tasks_ok k srvs ts → srvs !! length ts = Some s →
  tasks_ok k srvs (ts ++ [TEntry s]).
Proof.
  revert k ts. induction srvs as [|s0 srvs IH]; intros k ts Hok Hs; [done|].
  destruct ts as [|x ts]; simplify_eq/=.
  - split; [done|]. by destruct srvs.
  - destruct Hok as [Hx Hok]. split; [done|]. by apply IH.
Qed.

Lemma drop_cons_lookup (l : list string) n s rest :
  drop n l = s :: rest → l !! n = Some s ∧ drop (S n) l = rest.
Proof.
  revert n. induction l as [|x l IH]; intros [|n] H; simplify_eq/=; [done|].
  by apply IH.
Qed.

Lemma item_error_line i s :
  (∃ d, item i s = [d] ∧ error_line i s = [])
  ∨ (item i s = [] ∧ ∃ line, error_line i s = [line]).
Proof.
  unfold Dispatcher.item, Dispatcher.error_line.
  destruct outcome as [h [err|]]; [right | left]; eauto.
Qed.

Lemma start_invariant st :
  start config servers = Some st → invariant st.
Proof.
  unfold start. case_decide; [done|]. intros [= <-].
  split; simpl; try done; try lia; by destruct servers.
Qed.


(** Goals left by a move of goroutine [i] that neither sends nor prints. *)
Local Ltac quiet_move Ht Hok Hh Hl :=
  split; simpl;
  [ by rewrite length_insert
  | apply tasks_ok_insert; [exact Hok|]; intros ? ?; simplify_eq/=; done
  | lia
  | lia
  | lia
  | erewrite reported_from_insert_same; [done | exact Ht | done]
  | erewrite reported_from_insert_same; [done | exact Ht | done]
  | tauto ].

Lemma run_task_invariant st i t st' :
  invariant st → tasks st !! i = Some t →
  run_task json_decode net config capacity st i t = Some st' →
  invariant st'.
Proof.
  intros [Hpend Hok Hsem Hperm Hwg Hchan Hout Hclosed] Ht Hrun.
  destruct (tasks_ok_lookup _ _ _ _ _ Hok Ht) as (s & Hs & Hts). simpl in Hts.
  pose proof (λ t', sum_list_insert holding _ i t t' Ht) as Hh.
  pose proof (λ t', sum_list_insert live _ i t t' Ht) as Hl.
  destruct t as [server|url|url|url|d| | |]; simpl in Hrun, Hts.
  - (* entry: normalise the address *)
    injection Hrun as <-. specialize (Hh (TAcquire (serverURL server))).
    specialize (Hl (TAcquire (serverURL server))). simpl in Hh, Hl. subst server.
    quiet_move Ht Hok Hh Hl.
  - (* acquire a permit *)
    case_decide as Hfree; [|done]. injection Hrun as <-.
    specialize (Hh (TSleep url)). specialize (Hl (TSleep url)). simpl in Hh, Hl.
    quiet_move Ht Hok Hh Hl.
  - (* sleep, then call fetchHealthData *)
    injection Hrun as <-.
    specialize (Hh (TFetch url)). specialize (Hl (TFetch url)). simpl in Hh, Hl.
    quiet_move Ht Hok Hh Hl.
  - (* fetchHealthData returns *)
    subst url.
    pose proof (eq_refl : outcome i s = outcome i s) as Ho.
    unfold Dispatcher.outcome at 2 in Ho.
    destruct (fetchHealthData _ _ _ _) as [health [err|]] eqn:Hfetch.
    + (* error: print and return *)
      injection Hrun as <-.
      specialize (Hh TRelease). specialize (Hl TRelease). simpl in Hh, Hl.
      assert (item i s = []) as Hitem by (unfold Dispatcher.item; by rewrite Ho).
      assert (error_line i s
              = ["Error fetching data from " +:+ serverURL s +:+ ": " +:+ err
                 +:+ newline]) as Hline
        by (unfold Dispatcher.error_line; by rewrite Ho).
      split; simpl; try lia; try tauto.
      * by rewrite length_insert.
      * apply tasks_ok_insert; [exact Hok|]. done.
      * rewrite (reported_from_insert_new _ _ _ _ _ _ _ s Ht Hs) by done.
        simpl. by rewrite Hitem, app_nil_r.
      * rewrite (reported_from_insert_new _ _ _ _ _ _ _ s Ht Hs) by done.
        simpl. by rewrite Hline, Hout.
    + (* success: go on to the send *)
      injection Hrun as <-.
      specialize (Hh (TSend (record_of health))).
      specialize (Hl (TSend (record_of health))). simpl in Hh, Hl.
      assert (item i s = [record_of health]) as Hitem
        by (unfold Dispatcher.item; by rewrite Ho).
      split; simpl; try lia; try tauto.
      * by rewrite length_insert.
      * apply tasks_ok_insert; [exact Hok|]. intros ? ?; by simplify_eq/=.
      * by erewrite reported_from_insert_same.
      * by erewrite reported_from_insert_same.
  - (* send on dataChannel *)
    assert (error_line i s = []) as Hline.
    { destruct (item_error_line i s) as [(? & _ & ?) | (Hnil & _)]; [done|].
      by rewrite Hnil in Hts. }
    specialize (Hh TRelease). specialize (Hl TRelease). simpl in Hh, Hl.
    destruct (closed st) eqn:Hc; [done|].
    assert (reported_from item 0 servers (<[i:=TRelease]> (tasks st))
            ≡ₚ reported_from item 0 servers (tasks st) ++ [d]) as Hsent.
    { rewrite (reported_from_insert_new _ _ _ _ _ _ _ s Ht Hs) by done.
      simpl. by rewrite Hts. }
    assert (reported_from error_line 0 servers (<[i:=TRelease]> (tasks st))
            ≡ₚ reported_from error_line 0 servers (tasks st)) as Hprinted.
    { rewrite (reported_from_insert_new _ _ _ _ _ _ _ s Ht Hs) by done.
      simpl. by rewrite Hline, app_nil_r. }
    case_decide as Hroom; [|case_decide as Hunbuf; [|done]];
      injection Hrun as <-; (split; simpl; try lia; try done;
        [ by rewrite length_insert
        | apply tasks_ok_insert; [exact Hok|]; done
        | rewrite Hsent, <- Hchan; try solve_Permutation
        | by rewrite Hprinted ]).
  - (* deferred <-sem *)
    destruct (sem st) as [|n] eqn:Hn; [done|]. injection Hrun as <-.
    specialize (Hh TDone). specialize (Hl TDone). simpl in Hh, Hl.
    quiet_move Ht Hok Hh Hl.
  - (* deferred wg.Done() *)
    destruct (wg st) as [|n] eqn:Hn; [done|]. injection Hrun as <-.
    specialize (Hh TExit). specialize (Hl TExit). simpl in Hh, Hl.
    split; simpl; try lia.
    + by rewrite length_insert.
    + apply tasks_ok_insert; [exact Hok|]. done.
    + by erewrite reported_from_insert_same.
    + by erewrite reported_from_insert_same.
    + intros Hc. destruct (Hclosed Hc). lia.
  - done.
Qed.

Lemma step_invariant st e st' :
  invariant st → step st e = Some st' → invariant st'.
Proof.
  intros Hinv Hstep. destruct e as [|i| |]; simpl in Hstep.
  - (* the range loop starts the next goroutine *)
    destruct Hinv as [Hpend Hok Hsem Hperm Hwg Hchan Hout Hclosed].
    destruct (pending st) as [|server rest] eqn:Hp; [done|].
    injection Hstep as <-. symmetry in Hpend.
    apply drop_cons_lookup in Hpend as [Hs Hrest].
    split; simpl.
    + rewrite length_app. simpl. by rewrite Nat.add_1_r.
    + by apply tasks_ok_snoc.
    + rewrite sum_list_snoc. simpl. lia.
    + done.
    + rewrite sum_list_snoc. simpl. lia.
    + by rewrite reported_from_snoc.
    + by rewrite reported_from_snoc.
    + intros Hc. by destruct (Hclosed Hc).
  - destruct (tasks st !! i) as [t|] eqn:Ht; [|done].
    by eapply run_task_invariant.
  - (* wg.Wait() returns and the channel is closed *)
    destruct Hinv as [Hpend Hok Hsem Hperm Hwg Hchan Hout Hclosed].
    destruct (pending st) eqn:Hp; [|done].
    destruct (wg st) eqn:Hw; [|done].
    destruct (closed st) eqn:Hc; [done|].
    injection Hstep as <-. by split; simpl.
  - (* the consumer receives *)
    destruct Hinv as [Hpend Hok Hsem Hperm Hwg Hchan Hout Hclosed].
    destruct (buffer st) as [|d rest] eqn:Hb; [done|].
    injection Hstep as <-. split; simpl; try done.
    by rewrite <- Hchan, <- (assoc_L (++)).
Qed.

Lemma exec_invariant sched st st' :
  invariant st → exec st sched = Some st' → invariant st'.
Proof.
  revert st. induction sched as [|e sched IH]; intros st Hinv Hexec; simpl in Hexec.
  - by injection Hexec as <-.
  - destruct (step st e) as [st1|] eqn:Hstep; [|done].
    eapply IH; [|done]. by eapply step_invariant.
Qed.

Lemma run_invariant sched st :
  run servers sched = Some st → invariant st.
Proof.
  unfold Dispatcher.run. destruct (start config servers) as [st0|] eqn:Hstart; [|done].
  apply exec_invariant. by apply start_invariant.
Qed.

(** Goroutines inside fetchHealthData hold a permit. *)
Lemma fetching_le_holding (ts : list task) :
  (sum_list_with is_fetching ts ≤ sum_list_with holding ts)%nat.
Proof. induction ts as [|[] ts IH]; simpl; lia. Qed.

(** Once the channel is closed every goroutine has exited and the channel
    holds, or has delivered, exactly the items of the batch; everything
    printed is an error line of the batch. *)
Lemma closed_reported st :
  invariant st → closed st = true →
  received st ++ buffer st ≡ₚ items json_decode net config servers
  ∧ stdout st ≡ₚ error_lines json_decode net config servers
  ∧ length (tasks st) = length servers
  ∧ Forall (λ t, t = TExit) (tasks st).
Proof.
  intros [Hpend Hok Hsem Hperm Hwg Hchan Hout Hclosed] Hc.
  destruct (Hclosed Hc) as [Hp Hw]. rewrite Hw in Hwg.
  assert (length (tasks st) = length servers) as Hlen.
  { apply tasks_ok_length in Hok. rewrite Hp in Hpend. symmetry in Hpend.
    apply drop_nil_inv in Hpend. lia. }
  split; [|split; [|split]]; try done.
  - rewrite Hchan. unfold items. by rewrite reported_from_all.
  - rewrite Hout. unfold error_lines. by rewrite reported_from_all.
  - clear -Hwg. induction (tasks st) as [|[] ts IH]; simpl in *; try lia.
    + constructor.
    + constructor; [done|]. apply IH. lia.
Qed.

End DispatcherInvariant.

(** ** Dispatcher: the sequential schedule completes the batch *)

Section DispatcherSequential.
Import Dispatcher.

Variable json_decode : string → DecodeResult.
Variable net : nat → Transport.
Variable config : Config.
Variable capacity : nat.

Local Abbreviation step := (step json_decode net config capacity).
Local Abbreviation exec := (exec json_decode net config capacity).
Local Abbreviation run := (run json_decode net config capacity).
Local Abbreviation item := (item json_decode net config).
Local Abbreviation error_line := (error_line json_decode net config).
Local Abbreviation task_events := (task_events json_decode net config capacity).
Local Abbreviation sequential_from :=
  (sequential_from json_decode net config capacity).

Lemma exec_app st sched1 sched2 :
  exec st (sched1 ++ sched2) = exec st sched1 ≫= λ st', exec st' sched2.
Proof.
  revert st. induction sched1 as [|e sched1 IH]; intros st; simpl; [done|].
  destruct (step st e); [apply IH | done].
Qed.

Lemma insert_snoc (ts : list task) t t' :
  <[length ts := t']> (ts ++ [t]) = ts ++ [t'].
Proof. induction ts as [|x ts IH]; simpl; [done | by rewrite IH]. Qed.

Lemma lookup_snoc (ts : list task) t : (ts ++ [t]) !! length ts = Some t.
Proof. by apply list_lookup_middle. Qed.

Local Ltac run_steps :=
  repeat first
    [ rewrite lookup_snoc
    | rewrite insert_snoc
    | rewrite decide_True by (done || lia)
    | rewrite decide_False by (done || lia)
    | progress cbn [Dispatcher.exec Dispatcher.step run_task set_task pending
                    tasks sem wg buffer closed received stdout length app] ].

(** One goroutine run from launch to exit, alone. *)
Lemma task_events_exec server rest ts n w rcv out :
  Z.of_nat n < MaxConcurrency config →
  exec (mkState (server :: rest) ts n w [] false rcv out)
       (task_events (length ts) server)
  = Some (mkState rest (ts ++ [TExit]) n w [] false
            (rcv ++ item (length ts) server)
            (out ++ error_line (length ts) server)).
Proof.
  intros Hfree.
  unfold Dispatcher.task_events, Dispatcher.item, Dispatcher.error_line,
    Dispatcher.outcome.
  run_steps.
  destruct (fetchHealthData json_decode (net (length ts)) (serverURL server)
              (HTTPTimeout config)) as [health [err|]].
  - run_steps. by rewrite app_nil_r.
  - destruct (decide (capacity = 0%nat)) as [->|Hcap].
    + run_steps. by rewrite app_nil_r.
    + run_steps. by rewrite app_nil_r.
Qed.

Lemma sequential_from_exec servers ts n w rcv out :
  Z.of_nat n < MaxConcurrency config →
  exec (mkState servers ts n w [] false rcv out)
       (sequential_from (length ts) servers)
  = Some (mkState [] (ts ++ replicate (length servers) TExit) n w [] false
            (rcv ++ all_from item (length ts) servers)
            (out ++ all_from error_line (length ts) servers)).
Proof.
  intros Hfree. revert ts rcv out.
  induction servers as [|server rest IH]; intros ts rcv out;
    cbn [Dispatcher.sequential_from all_from length replicate].
  - by rewrite !app_nil_r.
  - rewrite exec_app, task_events_exec by done. cbn [mbind option_bind].
    specialize (IH (ts ++ [TExit])). rewrite length_app in IH. simpl in IH.
    rewrite Nat.add_1_r in IH. rewrite IH.
    by rewrite <- !(assoc_L (++)).
Qed.

(** With at least one permit, the sequential schedule runs to the end: the
    channel is closed and drained, the consumer has the items of the batch in
    launch order, and the error lines are on stdout. *)
Lemma sequential_run servers :
  0 < MaxConcurrency config →
  run servers (sequential json_decode net config capacity servers)
  = Some (mkState [] (replicate (length servers) TExit) 0 0 [] true
            (items json_decode net config servers)
            (error_lines json_decode net config servers)).
Proof.
  intros Hpos. unfold Dispatcher.run, start, sequential.
  rewrite decide_False by lia.
  rewrite exec_app.
  pose proof (sequential_from_exec servers [] 0 0 [] []) as Hseq.
  cbn [length] in Hseq. rewrite Hseq by (simpl; lia).
  reflexivity.
Qed.


End DispatcherSequential.

(** ** Dispatcher: no deadlock, and every run is finite *)

Section DispatcherProgress.
Import Dispatcher.
Local Open Scope nat_scope.

Variable json_decode : string → DecodeResult.
Variable net : nat → Transport.
Variable config : Config.
Variable capacity : nat.
Variable servers : list string.

Local Abbreviation step := (step json_decode net config capacity).
Local Abbreviation exec := (exec json_decode net config capacity).
Local Abbreviation run := (run json_decode net config capacity).
Local Abbreviation invariant := (invariant json_decode net config servers).

Lemma live_zero_holding_zero (ts : list task) :
  sum_list_with live ts = 0 → sum_list_with holding ts = 0.
Proof. induction ts as [|[] ts IH]; simpl; lia. Qed.

(** Among goroutines that have not all exited, one is past its acquire, or
    nobody holds a permit and one waits for it. *)
Lemma pick_task (ts : list task) :
  sum_list_with live ts ≠ 0 →
  (∃ i t, ts !! i = Some t ∧ t ≠ TExit ∧ ∀ url, t ≠ TAcquire url)
  ∨ (sum_list_with holding ts = 0 ∧ ∃ i url, ts !! i = Some (TAcquire url)).
Proof.
  induction ts as [|t ts IH]; simpl; [done|]. intros Hlive.
  destruct t as [server|url|url|url|d| | |];
    try (left; exists 0; eexists; by repeat split).
  - destruct (decide (sum_list_with live ts = 0)) as [Hz|Hnz].
    + right. split; [by rewrite live_zero_holding_zero | by exists 0, url].
    + destruct (IH Hnz) as [(i & t' & H & ?) | (Hh & i & url' & H)].
      * left. by exists (S i), t'.
      * right. split; [done|]. by exists 0, url.
  - destruct IH as [(i & t' & H & ?) | (Hh & i & url & H)]; [simpl in *; lia| |].
    + left. by exists (S i), t'.
    + right. split; [done|]. by exists (S i), url.
Qed.

Lemma progress st :
  invariant st → (0 < MaxConcurrency config)%Z → complete st = false →
  ∃ e st', step st e = Some st'.
Proof.
  intros [Hpend Hok Hsem Hperm Hwg Hchan Hout Hclosed] Hpos Hc.
  destruct (pending st) as [|server rest] eqn:Hp;
    [|exists Launch; simpl; rewrite Hp; eauto].
  destruct (buffer st) as [|d rest] eqn:Hb;
    [|exists Receive; simpl; rewrite Hb; eauto].
  unfold complete in Hc. rewrite Hb in Hc.
  destruct (closed st) eqn:Hcl; [done|]. clear Hc.
  destruct (decide (wg st = 0)) as [Hw|Hw].
  { exists Close. simpl. rewrite Hp, Hw, Hcl. eauto. }
  rewrite Hwg in Hw. destruct (pick_task _ Hw) as
    [(i & t & Ht & Hexit & Hacq) | (Hh & i & url & Ht)].
  - exists (Run i). simpl. rewrite Ht.
    pose proof (sum_list_lookup_le holding _ _ _ Ht) as Hhold.
    pose proof (sum_list_lookup_le live _ _ _ Ht) as Hlive.
    destruct t as [server|url|url|url|d| | |]; simpl in *; eauto.
    + by destruct (Hacq url).
    + destruct (fetchHealthData _ _ _ _) as [health [err|]]; eauto.
    + rewrite Hcl, Hb. simpl.
      destruct (decide (0 < capacity)); [eauto|].
      rewrite decide_True by lia. eauto.
    + destruct (sem st); [lia | eauto].
    + destruct (wg st); [lia | eauto].
    + done.
  - exists (Run i). simpl. rewrite Ht. simpl.
    rewrite decide_True by lia. eauto.
Qed.

Lemma step_measure st e st' :
  step st e = Some st' → measure st' < measure st.
Proof.
  unfold measure. destruct e as [|i| |]; simpl; intros Hstep.
  - destruct (pending st); [done|]. injection Hstep as <-. simpl.
    rewrite sum_list_snoc. simpl. lia.
  - destruct (tasks st !! i) as [t|] eqn:Ht; [|done].
    pose proof (λ t', sum_list_insert rank _ i t t' Ht) as Hr.
    destruct t as [server|url|url|url|d| | |]; simpl in Hstep.
    + injection Hstep as <-. specialize (Hr (TAcquire (serverURL server))).
      simpl in *. lia.
    + case_decide; [|done]. injection Hstep as <-. specialize (Hr (TSleep url)).
      simpl in *. lia.
    + injection Hstep as <-. specialize (Hr (TFetch url)). simpl in *. lia.
    + destruct (fetchHealthData _ _ _ _) as [health [err|]];
        injection Hstep as <-.
      * specialize (Hr TRelease). simpl in *. lia.
      * specialize (Hr (TSend (record_of health))). simpl in *. lia.
    + specialize (Hr TRelease). destruct (closed st); [done|].
      repeat case_decide; try done; injection Hstep as <-; simpl in *;
        rewrite ?length_app; simpl; lia.
    + destruct (sem st); [done|]. injection Hstep as <-. specialize (Hr TDone).
      simpl in *. lia.
    + destruct (wg st); [done|]. injection Hstep as <-. specialize (Hr TExit).
      simpl in *. lia.
    + done.
  - destruct (pending st), (wg st), (closed st); try done.
    injection Hstep as <-. simpl. lia.
  - destruct (buffer st); [done|]. injection Hstep as <-. simpl. lia.
Qed.

(** A schedule that executes is no longer than the measure of its start. *)
Lemma exec_length sched st st' :
  exec st sched = Some st' → length sched + measure st' ≤ measure st.
Proof.
  revert st. induction sched as [|e sched IH]; intros st; simpl.
  - intros [= <-]. lia.
  - destruct (step st e) as [st1|] eqn:Hstep; [|done]. intros Hexec.
    apply step_measure in Hstep. apply IH in Hexec. lia.
Qed.

(** From every state of a batch with at least one permit, some schedule
    leads to completion. *)
Lemma can_complete st :
  invariant st → (0 < MaxConcurrency config)%Z →
  ∃ sched st', exec st sched = Some st' ∧ complete st' = true.
Proof.
  intros Hinv Hpos. remember (measure st) as n eqn:Hn.
  revert st Hinv Hn. induction n as [n IH] using lt_wf_ind. intros st Hinv ->.
  destruct (complete st) eqn:Hc; [by exists [], st|].
  destruct (progress st Hinv Hpos Hc) as (e & st1 & Hstep).
  destruct (IH (measure st1) (step_measure _ _ _ Hstep) st1) as (sched & st' & He & Hd);
    [by eapply step_invariant | done |].
  exists (e :: sched), st'. simpl. by rewrite Hstep.
Qed.

End DispatcherProgress.

(** ** Dispatcher: the claims *)

Section DispatcherClaims.
Import Dispatcher.

Variable json_decode : string → DecodeResult.
Variable net : nat → Transport.
Variable config : Config.
Variable capacity : nat.

Local Abbreviation exec := (exec json_decode net config capacity).
Local Abbreviation run := (run json_decode net config capacity).
Local Abbreviation item := (item json_decode net config).
Local Abbreviation error_line := (error_line json_decode net config).
Local Abbreviation outcome := (outcome json_decode net config).
Local Abbreviation items := (items json_decode net config).
Local Abbreviation error_lines := (error_lines json_decode net config).

(** Every server of a batch gives one item or one error line. *)
Lemma items_error_lines_length k servers :
  (length (all_from item k servers) + length (all_from error_line k servers)
   = length servers)%nat.
Proof.
  revert k. induction servers as [|s servers IH]; intros k; simpl; [done|].
  rewrite !length_app. specialize (IH (S k)).
  destruct (item_error_line json_decode net config k s)
    as [(d & -> & ->) | (-> & line & ->)]; simpl; lia.
Qed.

Lemma error_lines_all_succeed k servers :
  (∀ i s, servers !! i = Some s → (outcome (k + i) s).2 = None) →
  all_from error_line k servers = [].
Proof.
  revert k. induction servers as [|s servers IH]; intros k Hok; simpl; [done|].
  rewrite IH.
  - specialize (Hok 0%nat s eq_refl). rewrite Nat.add_0_r in Hok.
    unfold Dispatcher.error_line. destruct outcome as [h [err|]]; done.
  - intros i s' Hs'. replace (S k + i)%nat with (k + S i)%nat by lia.
    by apply Hok.
Qed.

Lemma reported_from_nil {A} (f : nat → string → list A) k servers ts :
  (∀ i s, f i s = []) → reported_from f k servers ts = [].
Proof.
  intros Hf. revert k ts. induction servers as [|s servers IH]; intros k ts.
  - by destruct ts.
  - destruct ts as [|t ts]; simpl; [done|]. rewrite IH, Hf. by destruct (reported t).
Qed.

Lemma complete_received servers st :
  invariant json_decode net config servers st → complete st = true →
  received st ≡ₚ items servers ∧ stdout st ≡ₚ error_lines servers.
Proof.
  intros Hinv Hc. unfold complete in Hc. apply andb_prop in Hc as [Hcl Hb].
  apply bool_decide_eq_true in Hb.
  destruct (closed_reported _ _ _ _ _ Hinv Hcl) as (Hrcv & Hout & _).
  by rewrite Hb, app_nil_r in Hrcv.
Qed.

(** C5: with maxConcurrency C >= 1, in every state a batch can reach, under
    every interleaving of its goroutines, at most C goroutines are inside
    fetchHealthData. *)
Theorem fetch_concurrency_bounded servers sched st :
  1 ≤ MaxConcurrency config →
  run servers sched = Some st →
  Z.of_nat (fetching st) ≤ MaxConcurrency config.
Proof.
  intros _ Hrun. apply run_invariant in Hrun.
  destruct Hrun as [_ _ Hsem Hperm _ _ _ _].
  pose proof (fetching_le_holding (tasks st)). unfold fetching. lia.
Qed.

(** C9: a goroutine whose fetch fails sends nothing and prints one line, a
    goroutine whose fetch succeeds sends one record and prints nothing; in
    every reachable state the items received or buffered are those of the
    goroutines past their send; when the batch is complete the consumer has
    received exactly one record per successful fetch and nothing for a failed
    host, whose error line is on stdout; and with at least one permit every
    run can be continued to completion. *)
Theorem failed_fetch_not_emitted servers sched st :
  run servers sched = Some st →
  (∀ i server,
     match outcome i server with
     | (health, None) =>
         item i server = [record_of health] ∧ error_line i server = []
     | (_, Some err) =>
         item i server = []
         ∧ error_line i server
           = ["Error fetching data from " +:+ serverURL server +:+ ": " +:+ err
              +:+ newline]
     end)
  ∧ received st ++ buffer st ≡ₚ reported_from item 0 servers (tasks st)
  ∧ stdout st ≡ₚ reported_from error_line 0 servers (tasks st)
  ∧ (complete st = true →
     received st ≡ₚ items servers ∧ stdout st ≡ₚ error_lines servers)
  ∧ (0 < MaxConcurrency config →
     ∃ sched' st', exec st sched' = Some st' ∧ complete st' = true).
Proof.
  intros Hrun. apply run_invariant in Hrun.
  split; [|split; [|split; [|split]]].
  - intros i server. unfold Dispatcher.item, Dispatcher.error_line.
    by destruct outcome as [h [err|]].
  - apply Hrun.
  - apply Hrun.
  - by apply complete_received.
  - by apply (can_complete _ _ _ _ servers).
Qed.

(** C1 (as amended): with at least one permit a batch over any host list
    runs to completion; in every complete run the consumer has received one
    item per host whose fetch succeeded and stdout has one line per host whose
    fetch failed, so the number of items emitted is the number of hosts
    (duplicates and blank entries counted as they come) minus the number of
    failed fetches: at most the length of the list, and equal to it when every
    fetch succeeds. *)
Theorem emitted_one_per_success servers :
  (0 < MaxConcurrency config →
   ∃ sched st, run servers sched = Some st ∧ complete st = true)
  ∧ ∀ sched st,
      run servers sched = Some st → complete st = true →
      received st ≡ₚ items servers
      ∧ (length (received st) + length (stdout st) = length servers)%nat
      ∧ (length (received st) ≤ length servers)%nat
      ∧ ((∀ i s, servers !! i = Some s → (outcome i s).2 = None) →
         length (received st) = length servers).
Proof.
  split.
  - intros Hpos. eexists _, _. split; [by apply sequential_run|]. done.
  - intros sched st Hrun Hc. apply run_invariant in Hrun.
    destruct (complete_received _ _ Hrun Hc) as [Hrcv Hout].
    pose proof (items_error_lines_length 0 servers) as Hlen.
    fold (items servers) (error_lines servers) in Hlen.
    rewrite <- Hrcv, <- Hout in Hlen.
    split; [done|]. split; [done|]. split; [lia|].
    intros Hall. rewrite Hout in Hlen. unfold Dispatcher.error_lines in Hlen.
    rewrite error_lines_all_succeed in Hlen by done. simpl in Hlen. lia.
Qed.

End DispatcherClaims.

(** Two goroutines fetch at once under maxConcurrency 2, and the third is
    blocked at the semaphore. *)
Lemma fetch_concurrency_bounded_witness :
  ∃ st, Dispatcher.run mock_decode sample_net test_config 3 sample_servers
          two_fetching = Some st
    ∧ Dispatcher.fetching st = 2%nat
    ∧ Z.of_nat (Dispatcher.fetching st) ≤ MaxConcurrency test_config
    ∧ Dispatcher.run mock_decode sample_net test_config 3 sample_servers
        (two_fetching ++ [Dispatcher.Run 2]) = None.
Proof.
  eexists. split; [vm_compute; reflexivity|]. split; [reflexivity|].
  split; [|vm_compute; reflexivity].
  apply (fetch_concurrency_bounded mock_decode sample_net test_config 3
           sample_servers two_fetching); [vm_compute; discriminate|].
  vm_compute. reflexivity.
Defined.

(** Two servers answer, the third answers 500: two records are received and
    one line is printed. *)
Lemma failed_fetch_not_emitted_witness :
  ∃ st, Dispatcher.run mock_decode sample_net test_config 3 sample_servers
          (Dispatcher.sequential mock_decode sample_net test_config 3
             sample_servers) = Some st
    ∧ Dispatcher.complete st = true
    ∧ Dispatcher.received st
      ≡ₚ [Dispatcher.record_of mock_health; Dispatcher.record_of mock_health]
    ∧ length (Dispatcher.stdout st) = 1%nat.
Proof.
  eexists. split; [vm_compute; reflexivity|]. split; [reflexivity|].
  destruct (failed_fetch_not_emitted mock_decode sample_net test_config 3
              sample_servers
              (Dispatcher.sequential mock_decode sample_net test_config 3
                 sample_servers) _ ltac:(vm_compute; reflexivity))
    as (_ & _ & _ & Hc & _).
  destruct (Hc eq_refl) as [Hrcv Hout]. split; [exact Hrcv|]. reflexivity.
Defined.

Lemma emitted_one_per_success_witness :
  ∃ st, Dispatcher.run mock_decode sample_net test_config 3 sample_servers
          (Dispatcher.sequential mock_decode sample_net test_config 3
             sample_servers) = Some st
    ∧ (length (Dispatcher.received st) + length (Dispatcher.stdout st) = 3)%nat
    ∧ length (Dispatcher.received st) = 2%nat.
Proof.
  eexists. split; [vm_compute; reflexivity|]. split; [|reflexivity].
  destruct (emitted_one_per_success mock_decode sample_net test_config 3
              sample_servers) as [_ H].
  destruct (H (Dispatcher.sequential mock_decode sample_net test_config 3
                 sample_servers) _ ltac:(vm_compute; reflexivity) eq_refl)
    as (_ & Hlen & _).
  exact Hlen.
Defined.

(** C1 (as stated) fails: a batch over one unreachable host completes with
    nothing emitted, under every schedule, while the list has one host. *)
Lemma one_outcome_per_host_counterexample :
  (∃ st, Dispatcher.run mock_decode down_net default_config 1 [sample_host]
           (Dispatcher.sequential mock_decode down_net default_config 1
              [sample_host]) = Some st
      ∧ Dispatcher.complete st = true
      ∧ Dispatcher.received st = []
      ∧ length (Dispatcher.stdout st) = 1%nat)
  ∧ (∀ sched st,
       Dispatcher.run mock_decode down_net default_config 1 [sample_host] sched
       = Some st →
       length (Dispatcher.received st ++ Dispatcher.buffer st)
       ≠ length [sample_host]).
Proof.
  split.
  - eexists. split; [vm_compute; reflexivity|]. by repeat split.
  - intros sched st Hrun Hlen. apply run_invariant in Hrun.
    destruct Hrun as [_ _ _ _ _ Hchan _ _].
    rewrite reported_from_nil in Hchan by done.
    apply Permutation_nil_r in Hchan. by rewrite Hchan in Hlen.
Qed.

(** ** Configuration loading: defaults and overrides *)

Section ConfigLoading.

Variable Getenv : string → string.
Variable Atoi : string → option Z.

(** X1: a variable that is unset, empty or not accepted by Atoi leaves its
    setting at the default, whatever the other two variables hold. *)
Theorem LoadConfigFromEnv_keeps_default :
  (Getenv "HTTP_TIMEOUT" = "" ∨ Atoi (Getenv "HTTP_TIMEOUT") = None →
   HTTPTimeout (LoadConfigFromEnv Getenv Atoi) = defaultHTTPTimeout)
  ∧ (Getenv "REQUEST_DELAY" = "" ∨ Atoi (Getenv "REQUEST_DELAY") = None →
     RequestDelay (LoadConfigFromEnv Getenv Atoi) = defaultRequestDelay)
  ∧ (Getenv "MAX_CONCURRENCY" = "" ∨ Atoi (Getenv "MAX_CONCURRENCY") = None →
     MaxConcurrency (LoadConfigFromEnv Getenv Atoi) = defaultMaxConcurrency).
Proof.
  unfold LoadConfigFromEnv.
  split; [|split]; intros Hunset;
    repeat case_decide; repeat case_match; simpl; try done;
    destruct Hunset; congruence.
Qed.

(** X2: a variable that is set and parsed overrides its setting, whatever the
    other two hold: v seconds for HTTP_TIMEOUT and v milliseconds for
    REQUEST_DELAY, exactly, as long as the nanosecond count fits int64, and v
    itself, unchecked, for MAX_CONCURRENCY. *)
Theorem LoadConfigFromEnv_override v :
  (Getenv "HTTP_TIMEOUT" ≠ "" → Atoi (Getenv "HTTP_TIMEOUT") = Some v →
   -9223372036 ≤ v ≤ 9223372036 →
   HTTPTimeout (LoadConfigFromEnv Getenv Atoi) = v * Second)
  ∧ (Getenv "REQUEST_DELAY" ≠ "" → Atoi (Getenv "REQUEST_DELAY") = Some v →
     -9223372036854 ≤ v ≤ 9223372036854 →
     RequestDelay (LoadConfigFromEnv Getenv Atoi) = v * Millisecond)
  ∧ (Getenv "MAX_CONCURRENCY" ≠ "" → Atoi (Getenv "MAX_CONCURRENCY") = Some v →
     MaxConcurrency (LoadConfigFromEnv Getenv Atoi) = v).
Proof.
  unfold LoadConfigFromEnv.
  split; [|split]; intros Hset Hv; try intros Hrange; rewrite Hv;
    rewrite (decide_True _ _ Hset);
    repeat case_decide; repeat case_match; simpl; try done;
    unfold mul64; apply wrap64_id;
    unfold in_int64, min_int64, max_int64, Second, Millisecond; lia.
Qed.

End ConfigLoading.

Lemma LoadConfigFromEnv_keeps_default_witness :
  LoadConfigFromEnv unusable_env decimal_Atoi = NewDefaultConfig.
Proof.
  destruct (LoadConfigFromEnv_keeps_default unusable_env decimal_Atoi)
    as (Ht & Hd & Hc).
  specialize (Ht (or_introl eq_refl)).
  specialize (Hd (or_intror eq_refl)).
  specialize (Hc (or_introl eq_refl)).
  destruct (LoadConfigFromEnv unusable_env decimal_Atoi); simpl in *.
  by subst.
Defined.

(** The environment of TestLoadConfigFromEnv: 15 s. *)
Lemma LoadConfigFromEnv_override_witness :
  HTTPTimeout (LoadConfigFromEnv test_env decimal_Atoi) = 15000000000.
Proof.
  apply (LoadConfigFromEnv_override test_env decimal_Atoi 15);
    [discriminate | reflexivity | lia].
Defined.

(** ** Aggregator: keys, isolation, round trip *)

Section AggregatorMore.
Import Aggregator.

Implicit Types (m : gmap string (gmap string AggregatedData)).
Implicit Types (d : AggregatedData) (data : list AggregatedData).

Lemma dom_aggregate_step m d :
  dom (aggregate_step m d) = {[Application d]} ∪ dom m.
Proof.
  unfold aggregate_step. destruct (m !! Application d) eqn:Hm.
  - by rewrite dom_insert_L.
  - rewrite !dom_insert_L. by rewrite (assoc_L (∪)), (idemp_L (∪)).
Qed.

Lemma dom_fold data m :
  dom (fold_left aggregate_step data m)
  = list_to_set (Application <$> data) ∪ dom m.
Proof.
  revert m. induction data as [|d data IH]; intros m; simpl.
  - by rewrite (left_id_L ∅ (∪)).
  - rewrite IH, dom_aggregate_step.
    by rewrite (assoc_L (∪)), (comm_L (∪) (list_to_set _) {[_]}).
Qed.

(** X3: the applications of the returned mapping are exactly the
    applications that occur in the input. *)
Theorem aggregateData_applications data :
  dom (aggregateData data) = list_to_set (Application <$> data).
Proof.
  unfold aggregateData. by rewrite dom_fold, dom_empty_L, (right_id_L ∅ (∪)).
Qed.

(** X4: the entry of a key is determined by the input records that carry
    the key: records of other keys, wherever they stand in the input, do not
    change it. *)
Theorem aggregateData_key_isolation data data' app version :
  key_records app version data = key_records app version data' →
  entry (aggregateData data) app version
  = entry (aggregateData data') app version.
Proof. intros Hk. by rewrite !entry_aggregateData, Hk. Qed.

(** X5: a record whose key occurs once in the input, with counters in the
    int64 range, is returned unchanged under its key. *)
Theorem aggregateData_single_record data d :
  key_records (Application d) (Version d) data = [d] →
  in_int64 (TotalRequests d) → in_int64 (TotalSuccesses d) →
  entry (aggregateData data) (Application d) (Version d) = Some d.
Proof.
  intros Hk Hr Hs. rewrite entry_aggregateData, Hk. simpl.
  rewrite !Z.add_0_r, !wrap64_id by done. by destruct d.
Qed.

(** Aggregation of two permutations of one sequence. *)
Lemma aggregateData_perm_eq data data' :
  data ≡ₚ data' → aggregateData data = aggregateData data'.
Proof.
  intros Hp. apply aggregation_eq; try apply inner_nonempty_aggregateData.
  intros app version. rewrite !entry_aggregateData.
  pose proof (key_records_perm app version _ _ Hp) as Hk.
  rewrite (sumZ_perm (TotalRequests <$> key_records app version data)
             (TotalRequests <$> key_records app version data'))
    by (by rewrite Hk).
  rewrite (sumZ_perm (TotalSuccesses <$> key_records app version data)
             (TotalSuccesses <$> key_records app version data'))
    by (by rewrite Hk).
  destruct (key_records app version data) as [|x l],
           (key_records app version data') as [|x' l']; try done.
  - by apply Permutation_nil_cons in Hk.
  - symmetry in Hk. by apply Permutation_nil_cons in Hk.
Qed.

End AggregatorMore.

Lemma aggregateData_key_isolation_witness :
  Aggregator.entry (Aggregator.aggregateData (overflow_rec :: test_data))
    "Memcache2" "1.0.1"
  = Aggregator.entry (Aggregator.aggregateData test_data) "Memcache2" "1.0.1".
Proof. apply aggregateData_key_isolation. reflexivity. Defined.

Lemma aggregateData_single_record_witness :
  Aggregator.entry (Aggregator.aggregateData (overflow_rec :: test_data))
    "App" "V1"
  = Some overflow_rec.
Proof.
  apply (aggregateData_single_record (overflow_rec :: test_data) overflow_rec);
    [reflexivity | vm_compute; split; discriminate
     | vm_compute; split; discriminate].
Defined.

(** ** Fetch and normalisation: further behaviour *)

(** X6: unless the GET answers with status 200, the body is not decoded:
    the result does not depend on the decoder, the returned record is the zero
    value and the error is non-nil. *)
Theorem fetchHealthData_without_decoding
    (decode1 decode2 : string → DecodeResult) (client_Get : Transport)
    (url : string) (timeout : Z) :
  (∀ Body, client_Get url timeout ≠ GetResponse StatusOK Body) →
  fetchHealthData decode1 client_Get url timeout
  = fetchHealthData decode2 client_Get url timeout
  ∧ (fetchHealthData decode1 client_Get url timeout).1 = zeroHealthResponse
  ∧ is_Some (fetchHealthData decode1 client_Get url timeout).2.
Proof.
  intros Hnot. unfold fetchHealthData.
  destruct (client_Get url timeout) as [e|code body]; [by eauto|].
  destruct (Z.eqb_spec code StatusOK) as [->|Hne]; simpl; [|by eauto].
  by destruct (Hnot body).
Qed.

Lemma fetchHealthData_without_decoding_witness :
  fetchHealthData mock_decode mock_500 "https://h/healthz" 10000000000
  = fetchHealthData (λ _, mkDecodeResult mock_health None "") mock_500
      "https://h/healthz" 10000000000.
Proof.
  apply (fetchHealthData_without_decoding mock_decode
           (λ _, mkDecodeResult mock_health None "") mock_500).
  intros Body. discriminate.
Defined.

(** X7: the URL built for a server always starts with http:// or https://,
    and a host written without a scheme and the same host written with
    https:// are fetched from the same URL. *)
Theorem serverURL_scheme server :
  (String.prefix "http://" (serverURL server) = true
   ∨ String.prefix "https://" (serverURL server) = true)
  ∧ (String.prefix "http://" server = false →
     String.prefix "https://" server = false →
     serverURL ("https://" +:+ server) = serverURL server).
Proof.
  split; [apply serverURL_has_scheme|]. intros H1 H2.
  unfold serverURL. f_equal.
  rewrite (withScheme_fixed ("https://" +:+ server)).
  - unfold withScheme. by rewrite H1, H2.
  - right. destruct server; reflexivity.
Qed.

Lemma serverURL_scheme_witness :
  serverURL ("https://" +:+ sample_host) = serverURL sample_host.
Proof. apply (serverURL_scheme sample_host); reflexivity. Defined.

(** ** Dispatcher: barrier, blocking, termination, degenerate settings *)

Section DispatcherMore.
Import Dispatcher.

Variable json_decode : string → DecodeResult.
Variable net : nat → Transport.
Variable config : Config.
Variable capacity : nat.

Local Abbreviation step := (step json_decode net config capacity).
Local Abbreviation exec := (exec json_decode net config capacity).
Local Abbreviation run := (run json_decode net config capacity).
Local Abbreviation item := (item json_decode net config).
Local Abbreviation error_line := (error_line json_decode net config).
Local Abbreviation items := (items json_decode net config).

Lemma item_at_most_one i s : (length (item i s) ≤ 1)%nat.
Proof.
  unfold Dispatcher.item.
  destruct (outcome json_decode net config i s) as [h [err|]]; simpl; lia.
Qed.

Lemma unreported_le (ts : list task) :
  (sum_list_with unreported ts ≤ length ts)%nat.
Proof.
  induction ts as [|t ts IH]; simpl; [lia|].
  unfold unreported at 1. destruct (reported t); lia.
Qed.

(** Items sent so far and goroutines that have not sent yet add up to at
    most the number of goroutines. *)
Lemma reported_length k servers (ts : list task) :
  (length (reported_from item k servers ts) + sum_list_with unreported ts
   ≤ length ts)%nat.
Proof.
  revert k ts. induction servers as [|s servers IH]; intros k ts.
  - destruct ts; simpl; [lia|]. pose proof (unreported_le ts).
    unfold unreported at 1. destruct (reported t); lia.
  - destruct ts as [|t ts]; simpl; [lia|].
    rewrite length_app. specialize (IH (S k) ts).
    pose proof (item_at_most_one k s).
    unfold unreported at 1. destruct (reported t); simpl; lia.
Qed.

(** X8: the channel is closed only after the barrier: when it is closed
    the range loop is over, one goroutine per server has been started, every
    goroutine has exited, every permit is back and the WaitGroup is at 0. *)
Theorem closed_after_all_exit servers sched st :
  run servers sched = Some st → closed st = true →
  pending st = []
  ∧ length (tasks st) = length servers
  ∧ Forall (λ t, t = TExit) (tasks st)
  ∧ sem st = 0%nat
  ∧ wg st = 0%nat.
Proof.
  intros Hrun Hc. apply run_invariant in Hrun.
  destruct (closed_reported _ _ _ _ _ Hrun Hc) as (_ & _ & Hlen & Hexit).
  destruct Hrun as [_ _ Hsem _ Hwg _ _ Hclosed].
  destruct (Hclosed Hc) as [Hp Hw].
  repeat split; try done.
  rewrite Hsem. apply live_zero_holding_zero. by rewrite <- Hwg.
Qed.

(** X9: when the data channel has room for one item per server, as main
    and the tests create it, only the semaphore can block a goroutine: a
    goroutine that has not exited and is not waiting for a permit can always
    take its next step; in particular its send never blocks and never meets a
    closed channel. *)
Theorem only_semaphore_blocks servers sched st i t :
  (length servers ≤ capacity)%nat →
  run servers sched = Some st →
  tasks st !! i = Some t → t ≠ TExit → (∀ url, t ≠ TAcquire url) →
  is_Some (step st (Run i)).
Proof.
  intros Hcap Hrun Ht Hexit Hacq. apply run_invariant in Hrun.
  destruct Hrun as [_ Hok Hsem _ Hwg Hchan _ Hclosed].
  pose proof (sum_list_lookup_le holding _ _ _ Ht) as Hhold.
  pose proof (sum_list_lookup_le live _ _ _ Ht) as Hlive.
  pose proof (sum_list_lookup_le unreported _ _ _ Ht) as Hunrep.
  simpl. rewrite Ht.
  destruct t as [server|url|url|url|d| | |]; simpl in *; try done.
  - by destruct (Hacq url).
  - by destruct (fetchHealthData _ _ _ _) as [health [err|]].
  - destruct (closed st) eqn:Hc; [destruct (Hclosed eq_refl); lia|].
    rewrite decide_True; [done|].
    pose proof (reported_length 0 servers (tasks st)) as Hlen.
    rewrite <- Hchan, length_app in Hlen.
    apply tasks_ok_length in Hok. unfold unreported in Hunrep at 1.
    simpl in Hunrep. lia.
  - destruct (sem st); [lia | done].
  - destruct (wg st); [lia | done].
Qed.

(** X10: a batch cannot run forever: every schedule that executes has at
    most 9 events per server, plus the close. *)
Theorem run_length_bounded servers sched st :
  run servers sched = Some st →
  (length sched ≤ 9 * length servers + 1)%nat.
Proof.
  unfold Dispatcher.run, start. case_decide; [done|]. intros Hexec.
  apply exec_length in Hexec. unfold measure in Hexec. simpl in Hexec. lia.
Qed.

(** X11: what main aggregates does not depend on the interleaving: any two
    schedules that let the range loop end give the same mapping, the
    aggregation of one record per successful fetch. *)
Theorem main_aggregation_schedule_independent servers sched1 sched2 agg1 agg2 :
  main_aggregation json_decode net config servers sched1 = Some agg1 →
  main_aggregation json_decode net config servers sched2 = Some agg2 →
  agg1 = agg2 ∧ agg1 = Aggregator.aggregateData (items servers).
Proof.
  assert (∀ sched agg,
            main_aggregation json_decode net config servers sched = Some agg →
            agg = Aggregator.aggregateData (items servers)) as Hone.
  { intros sched agg. unfold main_aggregation.
    destruct (Dispatcher.run _ _ _ _ _ _) as [st|] eqn:Hrun; [|done].
    destruct (complete st) eqn:Hc; [|done]. intros [= <-].
    apply run_invariant in Hrun.
    destruct (complete_received _ _ _ _ _ Hrun Hc) as [Hrcv _].
    by apply aggregateData_perm_eq. }
  intros H1 H2. apply Hone in H1, H2. by subst.
Qed.

(** X12: an empty server list needs no permit: the channel is closed at
    once, nothing is started, sent or printed under any schedule, and main
    aggregates the empty mapping. *)
Theorem empty_batch :
  0 ≤ MaxConcurrency config →
  run [] [Close] = Some (mkState [] [] 0 0 [] true [] [])
  ∧ main_aggregation json_decode net config [] [Close] = Some ∅
  ∧ ∀ sched st, run [] sched = Some st →
      tasks st = [] ∧ received st = [] ∧ buffer st = [] ∧ stdout st = [].
Proof.
  intros Hpos.
  assert (run [] [Close] = Some (mkState [] [] 0 0 [] true [] [])) as Hrun.
  { unfold Dispatcher.run, start. by rewrite decide_False by lia. }
  split; [done|]. split.
  - unfold main_aggregation. simpl length.
    unfold Dispatcher.run, start. by rewrite decide_False by lia.
  - intros sched st Hst. apply run_invariant in Hst.
    destruct Hst as [_ Hok _ _ _ Hchan Hout _].
    destruct (tasks st) as [|t ts] eqn:Hts; [|done].
    simpl in Hchan, Hout.
    apply Permutation_nil_r in Hchan. apply Permutation_nil_r in Hout.
    by apply app_eq_nil in Hchan as [-> ->].
Qed.

Lemma before_permit_insert (ts : list task) i t :
  Forall before_permit ts → before_permit t →
  Forall before_permit (<[i:=t]> ts).
Proof. intros Hts Ht. by apply Forall_insert. Qed.

Lemma step_before_permit st e st' :
  MaxConcurrency config ≤ 0 →
  Forall before_permit (tasks st) → step st e = Some st' →
  Forall before_permit (tasks st').
Proof.
  intros Hzero Hts Hstep. destruct e as [|i| |]; simpl in Hstep.
  - destruct (pending st); [done|]. injection Hstep as <-. simpl.
    apply Forall_app. split; [done|]. by constructor.
  - destruct (tasks st !! i) as [t|] eqn:Ht; [|done].
    pose proof (Forall_lookup_1 _ _ _ _ Hts Ht) as Hbefore.
    destruct t as [server|url|url|url|d| | |]; simpl in Hstep, Hbefore;
      try done.
    + injection Hstep as <-. by apply before_permit_insert.
    + case_decide; [lia | done].
  - destruct (pending st), (wg st), (closed st); try done.
    by injection Hstep as <-.
  - destruct (buffer st); [done|]. by injection Hstep as <-.
Qed.

Lemma exec_before_permit sched st st' :
  MaxConcurrency config ≤ 0 →
  Forall before_permit (tasks st) → exec st sched = Some st' →
  Forall before_permit (tasks st').
Proof.
  intros Hzero. revert st.
  induction sched as [|e sched IH]; intros st Hts Hexec; simpl in Hexec.
  - by injection Hexec as <-.
  - destruct (step st e) as [st1|] eqn:Hstep; [|done].
    eapply IH; [|done]. by eapply step_before_permit.
Qed.

Lemma before_permit_sums (ts : list task) :
  Forall before_permit ts →
  sum_list_with live ts = length ts
  ∧ sum_list_with is_fetching ts = 0%nat
  ∧ sum_list_with holding ts = 0%nat.
Proof.
  induction 1 as [|t ts Ht _ (IH1 & IH2 & IH3)]; simpl; [done|].
  destruct t; simpl in *; try done; by rewrite IH1, IH2, IH3.
Qed.

Lemma before_permit_reported {A} (f : nat → string → list A) k servers ts :
  Forall before_permit ts → reported_from f k servers ts = [].
Proof.
  intros Hts. revert k servers.
  induction Hts as [|t ts Ht _ IH]; intros k [|s servers]; simpl; try done.
  rewrite IH. by destruct t.
Qed.

Lemma no_permit_state servers sched st :
  MaxConcurrency config ≤ 0 → servers ≠ [] →
  run servers sched = Some st →
  closed st = false ∧ sem st = 0%nat ∧ fetching st = 0%nat
  ∧ received st = [] ∧ buffer st = [] ∧ stdout st = [].
Proof.
  intros Hzero Hne Hrun.
  assert (Forall before_permit (tasks st)) as Hts.
  { unfold Dispatcher.run, start in Hrun. case_decide; [done|].
    eapply exec_before_permit; [done| |exact Hrun]. constructor. }
  apply run_invariant in Hrun.
  destruct Hrun as [Hpend _ Hsem _ Hwg Hchan Hout Hclosed].
  destruct (before_permit_sums _ Hts) as (Hlive & Hfetch & Hhold).
  rewrite before_permit_reported in Hchan by done.
  rewrite before_permit_reported in Hout by done.
  apply Permutation_nil_r in Hchan. apply Permutation_nil_r in Hout.
  apply app_eq_nil in Hchan as [Hrcv Hbuf].
  split; [|split; [congruence|by repeat split]].
  destruct (closed st); [|done].
  destruct (Hclosed eq_refl) as [Hp Hw].
  rewrite Hw in Hwg. rewrite Hlive in Hwg.
  destruct (tasks st); [|done]. rewrite drop_0 in Hpend. congruence.
Qed.

(** A negative size makes [make(chan struct{}, n)] panic: nothing runs. *)
Lemma negative_concurrency_panics servers sched :
  MaxConcurrency config < 0 → run servers sched = None.
Proof. intros Hneg. unfold Dispatcher.run, start. by rewrite decide_True. Qed.

(** X13: without a permit nothing happens.  When MaxConcurrency is 0 a batch
    over a non-empty list runs, but under any schedule no goroutine ever takes
    a permit or enters fetchHealthData, nothing is sent, buffered or printed,
    and the channel is never closed.  When MaxConcurrency is negative the
    function panics on creating the semaphore: no schedule executes. *)
Theorem no_permit_no_progress servers :
  (MaxConcurrency config < 0 → ∀ sched, run servers sched = None)
  ∧ (MaxConcurrency config = 0 → servers ≠ [] →
     ∀ sched st, run servers sched = Some st →
       closed st = false ∧ sem st = 0%nat ∧ fetching st = 0%nat
       ∧ received st = [] ∧ buffer st = [] ∧ stdout st = []).
Proof.
  split.
  - intros Hneg sched. by apply negative_concurrency_panics.
  - intros Hzero Hne sched st. apply no_permit_state; [lia | done].
Qed.

End DispatcherMore.

Lemma LoadConfigFromEnv_MaxConcurrency Getenv Atoi v :
  Getenv "MAX_CONCURRENCY" ≠ "" → Atoi (Getenv "MAX_CONCURRENCY") = Some v →
  MaxConcurrency (LoadConfigFromEnv Getenv Atoi) = v.
Proof.
  intros Hset Hv. unfold LoadConfigFromEnv.
  rewrite Hv, (decide_True _ _ Hset).
  by repeat case_decide; repeat case_match.
Qed.

(** X14: LoadConfigFromEnv does not validate MAX_CONCURRENCY: a value v of
    0 or below is taken as it is.  With v = 0 a batch run with the loaded
    configuration over a non-empty list never takes a permit, never fetches,
    never sends, buffers or prints anything and never closes its channel; with
    v < 0 the dispatcher panics on creating the semaphore, so no schedule
    executes. *)
Theorem loaded_zero_concurrency_stalls json_decode net Getenv Atoi capacity v :
  Getenv "MAX_CONCURRENCY" ≠ "" → Atoi (Getenv "MAX_CONCURRENCY") = Some v →
  v ≤ 0 →
  MaxConcurrency (LoadConfigFromEnv Getenv Atoi) = v
  ∧ (v < 0 → ∀ servers sched,
       Dispatcher.run json_decode net (LoadConfigFromEnv Getenv Atoi) capacity
         servers sched = None)
  ∧ (v = 0 → ∀ servers sched st, servers ≠ [] →
       Dispatcher.run json_decode net (LoadConfigFromEnv Getenv Atoi) capacity
         servers sched = Some st →
       Dispatcher.closed st = false
       ∧ Dispatcher.sem st = 0%nat
       ∧ Dispatcher.fetching st = 0%nat
       ∧ Dispatcher.received st = []
       ∧ Dispatcher.buffer st = []
       ∧ Dispatcher.stdout st = []).
Proof.
  intros Hset Hv Hzero.
  pose proof (LoadConfigFromEnv_MaxConcurrency _ _ _ Hset Hv) as Hmax.
  split; [done|]. split.
  - intros Hneg servers sched. apply negative_concurrency_panics. by rewrite Hmax.
  - intros -> servers sched st Hne Hrun.
    by apply (no_permit_state _ _ _ _ _ _ _ ltac:(by rewrite Hmax) Hne Hrun).
Qed.

Lemma closed_after_all_exit_witness :
  ∃ st, Dispatcher.run mock_decode sample_net test_config 3 sample_servers
          reversed = Some st
    ∧ length (Dispatcher.tasks st) = 3%nat
    ∧ Dispatcher.sem st = 0%nat.
Proof.
  eexists. split; [vm_compute; reflexivity|].
  destruct (closed_after_all_exit mock_decode sample_net test_config 3
              sample_servers reversed _ ltac:(vm_compute; reflexivity) eq_refl)
    as (_ & Hlen & _ & Hsem & _).
  split; [exact Hlen | exact Hsem].
Defined.

Lemma only_semaphore_blocks_witness :
  ∃ st, Dispatcher.run mock_decode sample_net test_config 3 sample_servers
          first_at_send = Some st
    ∧ Dispatcher.tasks st !! 0%nat
      = Some (Dispatcher.TSend (Dispatcher.record_of mock_health))
    ∧ is_Some (Dispatcher.step mock_decode sample_net test_config 3 st
                 (Dispatcher.Run 0)).
Proof.
  eexists. split; [vm_compute; reflexivity|]. split; [reflexivity|].
  apply (only_semaphore_blocks mock_decode sample_net test_config 3
           sample_servers first_at_send _ 0
           (Dispatcher.TSend (Dispatcher.record_of mock_health)));
    [simpl; lia | vm_compute; reflexivity | reflexivity | discriminate
     | discriminate].
Defined.

Lemma run_length_bounded_witness :
  (length reversed ≤ 9 * length sample_servers + 1)%nat.
Proof.
  eapply (run_length_bounded mock_decode sample_net test_config 3).
  vm_compute. reflexivity.
Defined.

Lemma main_aggregation_schedule_independent_witness :
  ∃ agg1 agg2,
    main_aggregation mock_decode sample_net test_config sample_servers reversed
    = Some agg1
    ∧ main_aggregation mock_decode sample_net test_config sample_servers
        (Dispatcher.sequential mock_decode sample_net test_config 3
           sample_servers)
      = Some agg2
    ∧ agg1 = agg2.
Proof.
  eexists _, _. split; [vm_compute; reflexivity|].
  split; [vm_compute; reflexivity|].
  eapply proj1.
  eapply (main_aggregation_schedule_independent mock_decode sample_net
            test_config sample_servers reversed
            (Dispatcher.sequential mock_decode sample_net test_config 3
               sample_servers));
    vm_compute; reflexivity.
Defined.

Lemma empty_batch_witness :
  main_aggregation mock_decode sample_net zero_config [] [Dispatcher.Close]
  = Some ∅.
Proof.
  apply (empty_batch mock_decode sample_net zero_config 0). vm_compute.
  discriminate.
Defined.

Lemma no_permit_no_progress_witness :
  (∃ st, Dispatcher.run mock_decode sample_net zero_config 3 sample_servers
           first_at_semaphore = Some st
     ∧ Dispatcher.closed st = false
     ∧ Dispatcher.sem st = 0%nat
     ∧ Dispatcher.fetching st = 0%nat)
  ∧ Dispatcher.run mock_decode sample_net negative_config 3 sample_servers
      first_at_semaphore = None.
Proof.
  split.
  - eexists. split; [vm_compute; reflexivity|].
    destruct (no_permit_no_progress mock_decode sample_net zero_config 3
                sample_servers) as [_ H].
    destruct (H eq_refl ltac:(discriminate) first_at_semaphore _
                ltac:(vm_compute; reflexivity)) as (Hc & Hs & Hf & _).
    split; [exact Hc|]. split; [exact Hs | exact Hf].
  - apply (no_permit_no_progress mock_decode sample_net negative_config 3
             sample_servers). reflexivity.
Defined.

Lemma loaded_zero_concurrency_stalls_witness :
  MaxConcurrency (LoadConfigFromEnv zero_env decimal_Atoi) = 0
  ∧ ∃ st, Dispatcher.run mock_decode sample_net
            (LoadConfigFromEnv zero_env decimal_Atoi) 3 sample_servers
            first_at_semaphore = Some st
      ∧ Dispatcher.closed st = false
      ∧ Dispatcher.buffer st = [].
Proof.
  destruct (loaded_zero_concurrency_stalls mock_decode sample_net zero_env
              decimal_Atoi 3 0 ltac:(discriminate) ltac:(reflexivity)
              ltac:(lia)) as (Hmax & _ & Hstall).
  split; [exact Hmax|].
  eexists. split; [vm_compute; reflexivity|].
  destruct (Hstall eq_refl sample_servers first_at_semaphore _
              ltac:(discriminate) ltac:(vm_compute; reflexivity))
    as (Hc & _ & _ & _ & Hb & _).
  split; [exact Hc | exact Hb].
Defined.
